(** * Double hashing product table: a shallow embedding of
      [double_hashing.py] and [models.py], and the properties of the
      specification checked against it.

    Conventions of the embedding.
    - Python [int] is [Z]; [a % b] is [pymod], which raises
      [ZeroDivisionError] for [b = 0] and is [Z.modulo] otherwise (both
      take the sign of the divisor).
    - Python [str] is [str], the sequence of its code points; [ord c]
      is the code point. A literal is written as a Rocq string.
    - A method that may raise returns [res A]; a method that mutates
      [self] takes the table and returns the new table with its result.
    - [list] indexing [l[i]] is [getitem] (negative indices wrap, out of
      range raises [IndexError]); [l[i] = x] is [setitem].
    - The f-string renderings (messages, resolutions, formulas) are kept
      as constructors carrying the numbers they print. *)

From Stdlib Require Import ZArith Znumtheory Lia String Ascii Bool.
From Stdlib Require Import Floats.SpecFloat Sorted.
From stdpp Require Import base list.

Local Open Scope Z_scope.

(** ** Python strings *)

(** A [str] is the sequence of its characters, each one a code point
    (any natural number here; Python stops at 0x10FFFF). A literal of
    the source is written as a Rocq string and read as the [str] of its
    characters. *)
Definition char := N.

Definition str := list char.

Bind Scope string_scope with str.

Definition str_of_string (s : string) : str :=
  N_of_ascii <$> list_ascii_of_string s.

Coercion str_of_string : string >-> str.

(** [a == b] on strings *)
Fixpoint str_eqb (a b : str) : bool :=
  match a, b with
  | [], [] => true
  | x :: a', y :: b' => N.eqb x y && str_eqb a' b'
  | _, _ => false
  end.

(** ** Exceptions *)

Inductive exn := ZeroDivisionError | IndexError | AttributeError.

Inductive res (A : Type) : Type :=
| Ok (a : A)
| Raise (e : exn).
Arguments Ok {A} a.
Arguments Raise {A} e.

Definition bind {A B} (m : res A) (f : A -> res B) : res B :=
  match m with
  | Ok a => f a
  | Raise e => Raise e
  end.

Notation "'let*' x := m 'in' k" := (bind m (fun x => k))
  (at level 10, x name, m at level 100, k at level 200).

Definition pymod (a b : Z) : res Z :=
  if b =? 0 then Raise ZeroDivisionError else Ok (a mod b).

(** [range(n)], [range(lo, hi)] and [range(hi, lo, -1)]. *)
Definition range (n : Z) : list Z :=
  Z.of_nat <$> seq 0 (Z.to_nat n).

Definition range_from (lo hi : Z) : list Z :=
  (fun k => lo + Z.of_nat k) <$> seq 0 (Z.to_nat (hi - lo)).

Definition range_down (hi lo : Z) : list Z :=
  (fun k => hi - Z.of_nat k) <$> seq 0 (Z.to_nat (hi - lo)).

Definition getitem {A} (l : list A) (i : Z) : res A :=
  let j := if i <? 0 then i + Z.of_nat (length l) else i in
  if j <? 0 then Raise IndexError
  else match l !! Z.to_nat j with
       | Some x => Ok x
       | None => Raise IndexError
       end.

Definition setitem {A} (l : list A) (i : Z) (x : A) : res (list A) :=
  let j := if i <? 0 then i + Z.of_nat (length l) else i in
  if (j <? 0) || (Z.of_nat (length l) <=? j) then Raise IndexError
  else Ok (<[Z.to_nat j := x]> l).

(** ** models.py *)

Record Product := {
  ma_san_pham : str;
  ten_san_pham : str;
  gia : spec_float;
  so_luong : Z;
  mo_ta : str
}.

(** [HashEntry.from_dict] may build an entry without a product, so the
    attribute is optional; reading [.product.ma_san_pham] of such an
    entry raises [AttributeError]. *)
Record HashEntry := {
  product : option Product;
  is_deleted : bool
}.

Definition product_key (e : HashEntry) : res str :=
  match product e with
  | Some p => Ok (ma_san_pham p)
  | None => Raise AttributeError
  end.

(** The plain-value forms. A key that [from_dict] reads with [.get] or
    tests with [in] is an [option] ([None]: key absent). *)
Record product_dict := {
  pd_ma_san_pham : str;
  pd_ten_san_pham : str;
  pd_gia : spec_float;
  pd_so_luong : Z;
  pd_mo_ta : option str
}.

Record entry_dict := {
  ed_product : option (option product_dict);
  ed_is_deleted : option bool
}.

Module ProductM.
Definition to_dict (p : Product) : product_dict :=
  {| pd_ma_san_pham := ma_san_pham p;
     pd_ten_san_pham := ten_san_pham p;
     pd_gia := gia p;
     pd_so_luong := so_luong p;
     pd_mo_ta := Some (mo_ta p) |}.

Definition from_dict (data : product_dict) : Product :=
  {| ma_san_pham := pd_ma_san_pham data;
     ten_san_pham := pd_ten_san_pham data;
     gia := pd_gia data;
     so_luong := pd_so_luong data;
     mo_ta := default ([] : str) (pd_mo_ta data) |}.
End ProductM.

Module HashEntryM.
Definition to_dict (e : HashEntry) : entry_dict :=
  {| ed_product :=
       Some match product e with
            | Some p => Some (ProductM.to_dict p)
            | None => None
            end;
     ed_is_deleted := Some (is_deleted e) |}.

(** [data.get("product")] is falsy when the key is absent or null. *)
Definition from_dict (data : entry_dict) : HashEntry :=
  {| product :=
       match ed_product data with
       | Some (Some pd) => Some (ProductM.from_dict pd)
       | _ => None
       end;
     is_deleted := default false (ed_is_deleted data) |}.

(** Truth value of the dict: it has at least one key. *)
Definition truthy (data : entry_dict) : bool :=
  match ed_product data, ed_is_deleted data with
  | None, None => false
  | _, _ => true
  end.
End HashEntryM.

(** ** CollisionLog *)

Inductive slot_status := StEmpty | StDeleted | StOccupied.

Record step_info := {
  attempt : Z;
  position : Z;
  status : slot_status;
  occupied_by : option str;
  found_key : option str
}.

Record calc_details := {
  cd_key : str;
  cd_ascii_sum : Z;
  cd_ascii_breakdown : list (char * Z);
  cd_size : Z;
  cd_R : Z;
  cd_h1 : Z;
  cd_h2 : Z;
  cd_probe_steps : list step_info
}.

(** The [calculation_details] dict: empty, or the bundle above. *)
Inductive details_dict := DictEmpty | DictCalc (d : calc_details).

Inductive resolution :=
| ResInsert (i pos : Z)
| ResSearchFailed (i pos : Z)
| ResSearchFound (i pos : Z).

Record CollisionLog := {
  log_key : str;
  log_operation : str;
  log_probe_sequence : list Z;
  log_resolution : resolution;
  log_collision_count : Z;
  log_calculation_details : details_dict
}.

(** [CollisionLog.__init__]; the last argument defaults to [None] and
    [calculation_details or {}] maps a falsy one to the empty dict. *)
Definition CollisionLog_init (key operation : str)
    (probe_sequence : list Z) (resolution : resolution)
    (calculation_details : option details_dict) : CollisionLog :=
  {| log_key := key;
     log_operation := operation;
     log_probe_sequence := probe_sequence;
     log_resolution := resolution;
     log_collision_count := Z.of_nat (length probe_sequence) - 1;
     log_calculation_details :=
       match calculation_details with
       | Some (DictCalc d) => DictCalc d
       | _ => DictEmpty
       end |}.

Record log_dict := {
  ld_key : str;
  ld_operation : str;
  ld_probe_sequence : list Z;
  ld_collision_count : Z;
  ld_resolution : resolution;
  ld_calculation_details : option details_dict
}.

(** ** DoubleHashTable *)

Record DoubleHashTable := {
  size : Z;
  table : list (option HashEntry);
  count : Z;
  collision_count : Z;
  collision_logs : list CollisionLog
}.

Record table_dict := {
  td_size : Z;
  td_count : Z;
  td_collision_count : Z;
  td_collision_logs : option (list log_dict);
  td_table : list (option entry_dict)
}.

Definition DoubleHashTable_init (size : Z) : DoubleHashTable :=
  {| size := size;
     table := replicate (Z.to_nat size) None;
     count := 0;
     collision_count := 0;
     collision_logs := [] |}.

Definition ord (c : char) : Z := Z.of_N c.

(** [sum(ord(char) for char in key)] *)
Fixpoint ascii_sum (key : str) : Z :=
  match key with
  | [] => 0
  | c :: rest => ord c + ascii_sum rest
  end.

(** [[(c, ord(c)) for c in key]] *)
Fixpoint ascii_breakdown (key : str) : list (char * Z) :=
  match key with
  | [] => []
  | c :: rest => (c, ord c) :: ascii_breakdown rest
  end.

Definition _hash1 (self : DoubleHashTable) (key : str) : res Z :=
  let hash_value := ascii_sum key in
  pymod hash_value (size self).

(** [int(num ** 0.5)] is the integer square root (the float power is
    exact enough for every [num] below 2^52). *)
Definition is_prime (num : Z) : bool :=
  if num <? 2 then false
  else forallb (fun i => negb (num mod i =? 0))
               (range_from 2 (Z.sqrt num + 1)).

Definition _get_prime_less_than (n : Z) : Z :=
  match find is_prime (range_down (n - 1) 1) with
  | Some i => i
  | None => 1
  end.

Definition _hash2 (self : DoubleHashTable) (key : str) : res Z :=
  let R := _get_prime_less_than (size self) in
  let hash_value := ascii_sum key in
  let* m := pymod hash_value R in
  Ok (R - m).

Definition _probe (self : DoubleHashTable) (key : str) (i : Z) : res Z :=
  let* h1 := _hash1 self key in
  let* h2 := _hash2 self key in
  pymod (h1 + i * h2) (size self).

(** ** insert *)

Inductive message :=
| MsgFull                  (* "Hash table is full!" *)
| MsgInserted (pos : Z)    (* "Inserted at position {pos}" *)
| MsgExists                (* "Product code already exists!" *)
| MsgCouldNotInsert        (* "Could not insert (table full)" *)
| MsgNotFound              (* "Product not found!" *)
| MsgDeleted (pos : Z).    (* "Deleted from position {pos}" *)

Definition set_table (self : DoubleHashTable) (tbl : list (option HashEntry))
    : DoubleHashTable :=
  {| size := size self; table := tbl; count := count self;
     collision_count := collision_count self;
     collision_logs := collision_logs self |}.

Definition set_count (self : DoubleHashTable) (c : Z) : DoubleHashTable :=
  {| size := size self; table := table self; count := c;
     collision_count := collision_count self;
     collision_logs := collision_logs self |}.

Definition set_collision_count (self : DoubleHashTable) (c : Z)
    : DoubleHashTable :=
  {| size := size self; table := table self; count := count self;
     collision_count := c;
     collision_logs := collision_logs self |}.

Definition append_log (self : DoubleHashTable) (log : CollisionLog)
    : DoubleHashTable :=
  {| size := size self; table := table self; count := count self;
     collision_count := collision_count self;
     collision_logs := collision_logs self ++ [log] |}.

Definition add_step (d : calc_details) (s : step_info) : calc_details :=
  {| cd_key := cd_key d; cd_ascii_sum := cd_ascii_sum d;
     cd_ascii_breakdown := cd_ascii_breakdown d; cd_size := cd_size d;
     cd_R := cd_R d; cd_h1 := cd_h1 d; cd_h2 := cd_h2 d;
     cd_probe_steps := cd_probe_steps d ++ [s] |}.

(** The bundle both [insert] and [search] build before their loop. *)
Definition details_init (self : DoubleHashTable) (key : str)
    : res calc_details :=
  let ascii_sum := ascii_sum key in
  let* h1_value := _hash1 self key in
  let* h2_value := _hash2 self key in
  let R := _get_prime_less_than (size self) in
  Ok {| cd_key := key; cd_ascii_sum := ascii_sum;
        cd_ascii_breakdown := ascii_breakdown key;
        cd_size := size self; cd_R := R;
        cd_h1 := h1_value; cd_h2 := h2_value;
        cd_probe_steps := [] |}.

(** [self.table[pos] and not self.table[pos].is_deleted] *)
Definition live (slot : option HashEntry) : bool :=
  match slot with
  | Some e => negb (is_deleted e)
  | None => false
  end.

Definition live_key (slot : option HashEntry) : res (option str) :=
  match slot with
  | Some e =>
      if negb (is_deleted e)
      then let* k := product_key e in Ok (Some k)
      else Ok None
  | None => Ok None
  end.

(** The body of [for i in range(self.size)] of [insert], as a recursion
    on the indices still to visit; [self] carries the collision counter
    bumped on the way. *)
Fixpoint insert_loop (product0 : Product) (key : str) (idx : list Z)
    (self : DoubleHashTable) (probe_sequence : list Z)
    (calculation_details : calc_details)
    : res (DoubleHashTable * (bool * message * list Z)) :=
  match idx with
  | [] => Ok (self, (false, MsgCouldNotInsert, probe_sequence))
  | i :: idx' =>
      let* pos := _probe self key i in
      let probe_sequence := probe_sequence ++ [pos] in
      let* slot := getitem (table self) pos in
      let* occ := live_key slot in
      let step_info :=
        {| attempt := i; position := pos;
           status := if live slot then StOccupied
                     else match slot with
                          | Some _ => StDeleted
                          | None => StEmpty
                          end;
           occupied_by := occ; found_key := None |} in
      let calculation_details := add_step calculation_details step_info in
      let landing :=
        let* tbl := setitem (table self) pos
                      (Some {| product := Some product0;
                               is_deleted := false |}) in
        let self := set_count (set_table self tbl) (count self + 1) in
        if i >? 0 then
          let self := set_collision_count self (collision_count self + 1) in
          let self :=
            append_log self
              (CollisionLog_init key "INSERT" probe_sequence
                 (ResInsert i pos) (Some (DictCalc calculation_details))) in
          Ok (self, (true, MsgInserted pos, probe_sequence))
        else Ok (self, (true, MsgInserted pos, probe_sequence)) in
      match slot with
      | None => landing
      | Some e =>
          if is_deleted e then landing
          else
            let* k := product_key e in
            if str_eqb k key
            then Ok (self, (false, MsgExists, probe_sequence))
            else
              let self :=
                if i =? 0
                then set_collision_count self (collision_count self + 1)
                else self in
              insert_loop product0 key idx' self probe_sequence
                          calculation_details
      end
  end.

Definition insert (self : DoubleHashTable) (product0 : Product)
    : res (DoubleHashTable * (bool * message * list Z)) :=
  if count self >=? size self then Ok (self, (false, MsgFull, []))
  else
    let key := ma_san_pham product0 in
    let* calculation_details := details_init self key in
    insert_loop product0 key (range (size self)) self [] calculation_details.

(** ** search *)

Fixpoint search_loop (key : str) (idx : list Z)
    (self : DoubleHashTable) (probe_sequence : list Z)
    (calculation_details : calc_details)
    : res (DoubleHashTable * (option Product * Z * list Z)) :=
  match idx with
  | [] => Ok (self, (None, -1, probe_sequence))
  | i :: idx' =>
      let* pos := _probe self key i in
      let probe_sequence := probe_sequence ++ [pos] in
      let* slot := getitem (table self) pos in
      let* fk := live_key slot in
      let step_info :=
        {| attempt := i; position := pos;
           status := match slot with
                     | None => StEmpty
                     | Some e => if is_deleted e then StDeleted
                                 else StOccupied
                     end;
           occupied_by := None; found_key := fk |} in
      let calculation_details := add_step calculation_details step_info in
      match slot with
      | None =>
          if i >? 0 then
            Ok (append_log self
                  (CollisionLog_init key "SEARCH" probe_sequence
                     (ResSearchFailed i pos)
                     (Some (DictCalc calculation_details))),
                (None, -1, probe_sequence))
          else Ok (self, (None, -1, probe_sequence))
      | Some e =>
          if is_deleted e
          then search_loop key idx' self probe_sequence calculation_details
          else
            let* k := product_key e in
            if str_eqb k key then
              if i >? 0 then
                Ok (append_log self
                      (CollisionLog_init key "SEARCH" probe_sequence
                         (ResSearchFound i pos)
                         (Some (DictCalc calculation_details))),
                    (product e, pos, probe_sequence))
              else Ok (self, (product e, pos, probe_sequence))
            else search_loop key idx' self probe_sequence calculation_details
      end
  end.

Definition search (self : DoubleHashTable) (key : str)
    : res (DoubleHashTable * (option Product * Z * list Z)) :=
  let* calculation_details := details_init self key in
  search_loop key (range (size self)) self [] calculation_details.

(** ** delete *)

(** [self.table[pos].is_deleted = True] changes the entry object in
    place. Every entry is made by [insert] or [from_dict] for one slot,
    so no other slot shares it and the assignment is the update of that
    slot. *)

Definition delete (self : DoubleHashTable) (key : str)
    : res (DoubleHashTable * (bool * message * list Z)) :=
  let* r := search self key in
  let '(self, (product0, pos, probe_sequence)) := r in
  match product0 with
  | None => Ok (self, (false, MsgNotFound, probe_sequence))
  | Some _ =>
      let* slot := getitem (table self) pos in
      match slot with
      | None => Raise AttributeError
      | Some e =>
          let* tbl := setitem (table self) pos
                        (Some {| product := product e;
                                 is_deleted := true |}) in
          let self := set_count (set_table self tbl) (count self - 1) in
          Ok (self, (true, MsgDeleted pos, probe_sequence))
      end
  end.

(** ** Export and import *)

Definition get_collision_logs (self : DoubleHashTable) : list log_dict :=
  (fun log =>
     {| ld_key := log_key log;
        ld_operation := log_operation log;
        ld_probe_sequence := log_probe_sequence log;
        ld_collision_count := log_collision_count log;
        ld_resolution := log_resolution log;
        ld_calculation_details := Some (log_calculation_details log) |})
  <$> collision_logs self.

Definition to_dict (self : DoubleHashTable) : table_dict :=
  {| td_size := size self;
     td_count := count self;
     td_collision_count := collision_count self;
     td_collision_logs := Some (get_collision_logs self);
     td_table :=
       (fun entry : option HashEntry =>
          match entry with
          | Some e => Some (HashEntryM.to_dict e)
          | None => None
          end) <$> table self |}.

(** [log.get("calculation_details", {})] *)
Definition log_from_dict (log : log_dict) : CollisionLog :=
  CollisionLog_init (ld_key log) (ld_operation log) (ld_probe_sequence log)
    (ld_resolution log)
    (Some (default DictEmpty (ld_calculation_details log))).

Definition from_dict (data : table_dict) : DoubleHashTable :=
  let ht := DoubleHashTable_init (td_size data) in
  let ht := set_count ht (td_count data) in
  let ht := set_collision_count ht (td_collision_count data) in
  let ht :=
    set_table ht
      ((fun entry =>
          match entry with
          | Some d => if HashEntryM.truthy d
                      then Some (HashEntryM.from_dict d) else None
          | None => None
          end) <$> td_table data) in
  match td_collision_logs data with
  | Some logs =>
      {| size := size ht; table := table ht; count := count ht;
         collision_count := collision_count ht;
         collision_logs := log_from_dict <$> logs |}
  | None => ht
  end.

(** ** Sequences of calls on a table *)

Inductive op :=
| OpInsert (p : Product)
| OpSearch (key : str)
| OpDelete (key : str).

Definition step (self : DoubleHashTable) (o : op) : res DoubleHashTable :=
  match o with
  | OpInsert p => let* r := insert self p in Ok (fst r)
  | OpSearch k => let* r := search self k in Ok (fst r)
  | OpDelete k => let* r := delete self k in Ok (fst r)
  end.

Fixpoint run (self : DoubleHashTable) (ops : list op) : res DoubleHashTable :=
  match ops with
  | [] => Ok self
  | o :: ops' => let* self := step self o in run self ops'
  end.

(** The states a fresh table of the given size reaches by calls that
    return. On a fresh table with at least one slot no call raises
    ([step_returns], [reachable_table_ok]); with no slot, [search] and
    [delete] raise [ZeroDivisionError] before they touch the table. *)
Inductive reachable (n : Z) : DoubleHashTable -> Prop :=
| reach_init : reachable n (DoubleHashTable_init n)
| reach_step self o self' :
    reachable n self -> step self o = Ok self' -> reachable n self'.

(** A product with the given code, for the examples. *)
Definition sp (code : str) : Product :=
  {| ma_san_pham := code; ten_san_pham := "";
     gia := S754_zero false; so_luong := 0; mo_ta := "" |}.

(** ** Vocabulary of the properties *)

(** The probe position as a function of the capacity, the key and the
    attempt: what [_probe] returns on a table with at least one slot. *)
Definition h1 (n : Z) (key : str) : Z := ascii_sum key mod n.
Definition h2 (n : Z) (key : str) : Z :=
  _get_prime_less_than n - ascii_sum key mod _get_prime_less_than n.
Definition probe_pos (n : Z) (key : str) (i : Z) : Z :=
  (h1 n key + i * h2 n key) mod n.

(** What a probe finds at position [p]: a slot that [insert] takes (empty
    or tombstoned), a live entry with the key, a live entry with another
    key. A position that cannot be read is none of the three. *)
Definition slot_free (tbl : list (option HashEntry)) (p : Z) : bool :=
  match getitem tbl p with
  | Ok None => true
  | Ok (Some e) => is_deleted e
  | Raise _ => false
  end.

Definition slot_same (key : str) (tbl : list (option HashEntry)) (p : Z)
    : bool :=
  match getitem tbl p with
  | Ok (Some e) =>
      negb (is_deleted e) &&
      match product e with
      | Some pr => str_eqb (ma_san_pham pr) key
      | None => false
      end
  | _ => false
  end.

Definition slot_other (key : str) (tbl : list (option HashEntry)) (p : Z)
    : bool :=
  match getitem tbl p with
  | Ok (Some e) =>
      negb (is_deleted e) &&
      match product e with
      | Some pr => negb (str_eqb (ma_san_pham pr) key)
      | None => false
      end
  | _ => false
  end.

Definition slot_empty (tbl : list (option HashEntry)) (p : Z) : bool :=
  match getitem tbl p with
  | Ok None => true
  | _ => false
  end.

(** A slot that [search] walks past: a tombstone, or a live entry with
    another key. *)
Definition slot_skip (key : str) (tbl : list (option HashEntry)) (p : Z)
    : bool :=
  match getitem tbl p with
  | Ok (Some e) =>
      is_deleted e ||
      match product e with
      | Some pr => negb (str_eqb (ma_san_pham pr) key)
      | None => false
      end
  | _ => false
  end.

(** [sum(1 for entry in self.table if entry and not entry.is_deleted)],
    the [occupied] figure of [get_statistics]. *)
Fixpoint occupied (tbl : list (option HashEntry)) : Z :=
  match tbl with
  | [] => 0
  | slot :: rest => (if live slot then 1 else 0) + occupied rest
  end.

(** The collision counter raised by [k]. *)
Definition bump (self : DoubleHashTable) (k : Z) : DoubleHashTable :=
  set_collision_count self (collision_count self + k).

(** How many of the visited attempts are attempt 0. *)
Fixpoint zeros (idx : list Z) : Z :=
  match idx with
  | [] => 0
  | i :: rest => (if i =? 0 then 1 else 0) + zeros rest
  end.

(** The table after [insert] has placed the product at [pos] on attempt
    [i], having visited [probe_sequence]. *)
Definition landed (self : DoubleHashTable) (product0 : Product)
    (key : str) (i pos : Z) (probe_sequence : list Z) (d : calc_details)
    : DoubleHashTable :=
  let self :=
    set_count
      (set_table self
         (<[Z.to_nat pos := Some {| product := Some product0;
                                    is_deleted := false |}]> (table self)))
      (count self + 1) in
  if i >? 0 then
    append_log (set_collision_count self (collision_count self + 1))
      (CollisionLog_init key "INSERT" probe_sequence (ResInsert i pos)
         (Some (DictCalc d)))
  else self.

(** The table after [search] has stopped on attempt [i]. *)
Definition search_logged (self : DoubleHashTable) (key : str) (i : Z)
    (probe_sequence : list Z) (res : resolution) (d : calc_details)
    : DoubleHashTable :=
  if i >? 0 then
    append_log self
      (CollisionLog_init key "SEARCH" probe_sequence res (Some (DictCalc d)))
  else self.

(** A search that ended on a match or on an empty slot, as opposed to one
    that used up its attempts. *)
Definition search_stopped (tbl : list (option HashEntry))
    (found : option Product) (probe_sequence : list Z) : bool :=
  match found with
  | Some _ => true
  | None =>
      match last probe_sequence with
      | Some q => slot_empty tbl q
      | None => false
      end
  end.

(** The state a table built by the constructor and the three calls is
    in: as many slots as the capacity, the counter equal to the number of
    live slots, a product in every live entry. *)
Record table_ok (self : DoubleHashTable) : Prop := {
  ok_size : 1 <= size self;
  ok_length : Z.of_nat (length (table self)) = size self;
  ok_count : count self = occupied (table self);
  ok_products :
    forall (j : nat) e, table self !! j = Some (Some e) ->
                        is_deleted e = false -> product e <> None
}.

(** No two slots hold live entries with the same key. *)
Definition unique_live_keys (tbl : list (option HashEntry)) : Prop :=
  forall (j1 j2 : nat) e1 e2 p1 p2,
    tbl !! j1 = Some (Some e1) -> tbl !! j2 = Some (Some e2) ->
    is_deleted e1 = false -> is_deleted e2 = false ->
    product e1 = Some p1 -> product e2 = Some p2 ->
    ma_san_pham p1 = ma_san_pham p2 -> j1 = j2.

(** The key is stored live somewhere in the slot array. *)
Definition stored_live (key : str) (tbl : list (option HashEntry)) : Prop :=
  exists (j : nat) e p,
    tbl !! j = Some (Some e) /\ is_deleted e = false /\
    product e = Some p /\ ma_san_pham p = key.

(** An entry of the log is what the constructor builds from its fields:
    the class has no other way to make or change one. *)
Definition constructed (log : CollisionLog) : Prop :=
  log = CollisionLog_init (log_key log) (log_operation log)
          (log_probe_sequence log) (log_resolution log)
          (Some (log_calculation_details log)).

(** ** Tables of the examples *)

Definition entry_of (code : str) (deleted : bool) : option HashEntry :=
  Some {| product := Some (sp code); is_deleted := deleted |}.

(** Capacity 5 after [insert "A"]: "A" (sum 65) sits in slot 0. *)
Definition table_A : DoubleHashTable :=
  {| size := 5;
     table := [entry_of "A" false; None; None; None; None];
     count := 1; collision_count := 0; collision_logs := [] |}.

(** Capacity 5 after [insert "A"; insert "F"]: "F" (sum 70) collides
    with "A" in slot 0 and lands in slot 2 with step 2. *)
Definition table_AF : DoubleHashTable :=
  match insert table_A (sp "F") with
  | Ok (self, _) => self
  | Raise _ => table_A
  end.

(** Capacity 6 after [insert "0"; insert "3"]: "0" (sum 48) sits in slot
    0 and "3" (sum 51) in slot 3. *)
Definition table_03 : DoubleHashTable :=
  {| size := 6;
     table := [entry_of "0" false; None; None; entry_of "3" false; None; None];
     count := 2; collision_count := 0; collision_logs := [] |}.

(** The table a sequence of calls on a fresh table of capacity 5 ends
    in. *)
Definition after5 (ops : list op) : DoubleHashTable :=
  match run (DoubleHashTable_init 5) ops with
  | Ok self => self
  | Raise _ => DoubleHashTable_init 5
  end.

(** "A" deleted again: a tombstone in slot 0, "F" live in slot 2. *)
Definition table_aF : DoubleHashTable :=
  after5 [OpInsert (sp "A"); OpInsert (sp "F"); OpDelete "A"].

(** "F" inserted once more. *)
Definition table_FF : DoubleHashTable :=
  after5 [OpInsert (sp "A"); OpInsert (sp "F"); OpDelete "A";
          OpInsert (sp "F")].

(** and deleted once. *)
Definition table_fF : DoubleHashTable :=
  after5 [OpInsert (sp "A"); OpInsert (sp "F"); OpDelete "A";
          OpInsert (sp "F"); OpDelete "F"].

(** ** Enumeration and statistics *)

(** [enumerate(l)]: the elements with their indices. *)
Definition enumerate {A} (l : list A) : list (Z * A) :=
  imap (fun i x => (Z.of_nat i, x)) l.

(** [get_all_products]: the loop appends [(i, entry.product)] for every
    entry that is not [None] and not deleted. *)
Definition get_all_products (self : DoubleHashTable)
    : list (Z * option Product) :=
  flat_map
    (fun '(i, entry) =>
       match entry with
       | Some e => if negb (is_deleted e) then [(i, product e)] else []
       | None => []
       end)
    (enumerate (table self)).

(** The ["product"] value of a slot in [get_table_state]: [None], the
    product code of a tombstone, the product of a live entry. *)
Inductive state_product :=
| SPNone
| SPCode (code : str)
| SPProduct (p : option Product).

Record slot_state := {
  st_index : Z;
  st_status : slot_status;
  st_product : state_product
}.

Fixpoint table_state_loop (items : list (Z * option HashEntry))
    (state : list slot_state) : res (list slot_state) :=
  match items with
  | [] => Ok state
  | (i, entry) :: items' =>
      match entry with
      | None =>
          table_state_loop items'
            (state ++ [{| st_index := i; st_status := StEmpty;
                          st_product := SPNone |}])
      | Some e =>
          if is_deleted e then
            let* code := product_key e in
            table_state_loop items'
              (state ++ [{| st_index := i; st_status := StDeleted;
                            st_product := SPCode code |}])
          else
            table_state_loop items'
              (state ++ [{| st_index := i; st_status := StOccupied;
                            st_product := SPProduct (product e) |}])
      end
  end.

Definition get_table_state (self : DoubleHashTable) : res (list slot_state) :=
  table_state_loop (enumerate (table self)) [].

(** [sum(1 for entry in self.table if entry and entry.is_deleted)] *)
Fixpoint deleted (tbl : list (option HashEntry)) : Z :=
  match tbl with
  | [] => 0
  | slot :: rest =>
      (match slot with
       | Some e => if is_deleted e then 1 else 0
       | None => 0
       end) + deleted rest
  end.

(** A Python number: [load_factor] is the float [occupied / self.size],
    or the int [0] when the size is not positive. *)
Inductive number :=
| NInt (z : Z)
| NFloat (f : spec_float).

(** [float(z)] and the true division of two ints, in binary64 (exact for
    ints below 2^53, as slot counts are). *)
Definition float_of_int (z : Z) : spec_float :=
  binary_normalize 53 1024 z 0 false.

Definition true_div (a b : Z) : spec_float :=
  SFdiv 53 1024 (float_of_int a) (float_of_int b).

Record statistics := {
  stat_size : Z;
  stat_occupied : Z;
  stat_deleted : Z;
  stat_empty : Z;
  stat_load_factor : number;
  stat_collisions : Z;
  stat_total_collision_events : Z
}.

Definition get_statistics (self : DoubleHashTable) : statistics :=
  let occupied := occupied (table self) in
  let deleted := deleted (table self) in
  let empty := size self - occupied - deleted in
  let load_factor :=
    if size self >? 0 then NFloat (true_div occupied (size self))
    else NInt 0 in
  {| stat_size := size self;
     stat_occupied := occupied;
     stat_deleted := deleted;
     stat_empty := empty;
     stat_load_factor := load_factor;
     stat_collisions := collision_count self;
     stat_total_collision_events := Z.of_nat (length (collision_logs self)) |}.

(** ** More vocabulary *)

(** Every live entry sits on the walk of its own key, with no empty slot
    on the attempts before it: what lets [search] reach it. *)
Definition findable (self : DoubleHashTable) : Prop :=
  forall (j : nat) e pr,
    table self !! j = Some (Some e) -> is_deleted e = false ->
    product e = Some pr ->
    exists i,
      0 <= i < size self /\
      probe_pos (size self) (ma_san_pham pr) i = Z.of_nat j /\
      forall i', 0 <= i' < i ->
        slot_empty (table self)
                   (probe_pos (size self) (ma_san_pham pr) i') = false.

(** Every entry, live or tombstoned, has its product. *)
Definition entries_have_products (tbl : list (option HashEntry)) : Prop :=
  forall (j : nat) e, tbl !! j = Some (Some e) -> product e <> None.

(** The number of slots never used. *)
Fixpoint empties (tbl : list (option HashEntry)) : Z :=
  match tbl with
  | [] => 0
  | slot :: rest =>
      (match slot with Some _ => 0 | None => 1 end) + empties rest
  end.

(** The number of INSERT entries of a log. *)
Fixpoint insert_entries (logs : list CollisionLog) : Z :=
  match logs with
  | [] => 0
  | log :: rest =>
      (if str_eqb (log_operation log) "INSERT" then 1 else 0)
      + insert_entries rest
  end.

(** What [get_table_state] reports for a slot. *)
Definition slot_view (slot : option HashEntry) (s : slot_state) : Prop :=
  match slot with
  | None => st_status s = StEmpty /\ st_product s = SPNone
  | Some e =>
      if is_deleted e
      then st_status s = StDeleted /\
           exists pr, product e = Some pr /\
                      st_product s = SPCode (ma_san_pham pr)
      else st_status s = StOccupied /\ st_product s = SPProduct (product e)
  end.

(** * Properties *)

(** ** Equality of strings *)

Lemma str_eqb_eq (a b : str) : str_eqb a b = true <-> a = b.
Proof.
  revert b. induction a as [|x a IH]; intros [|y b]; cbn; try done.
  rewrite andb_true_iff, N.eqb_eq, IH. split.
  - by intros [-> ->].
  - by intros [= -> ->].
Qed.

Lemma str_eqb_refl (a : str) : str_eqb a a = true.
Proof. by apply str_eqb_eq. Qed.

Lemma str_eqb_neq (a b : str) : str_eqb a b = false <-> a <> b.
Proof.
  rewrite <- str_eqb_eq. destruct (str_eqb a b); split; congruence.
Qed.

(** ** The sum of the code points *)

Lemma ascii_sum_code_points (key : str) :
  ascii_sum key = foldr Z.add 0 (Z.of_N <$> key).
Proof.
  induction key as [|c key IH]; [reflexivity|].
  cbn [ascii_sum fmap list_fmap foldr]. by rewrite IH.
Qed.

(** ** Ranges *)

Lemma in_range_from lo hi i : In i (range_from lo hi) <-> lo <= i < hi.
Proof.
  unfold range_from. rewrite in_map_iff. split.
  - intros (k & <- & Hk). apply in_seq in Hk. lia.
  - intros H. exists (Z.to_nat (i - lo)). split; [lia|].
    apply in_seq. lia.
Qed.

Lemma range_down_nil hi lo : hi <= lo -> range_down hi lo = [].
Proof.
  intros H. unfold range_down.
  replace (Z.to_nat (hi - lo)) with 0%nat by lia. reflexivity.
Qed.

Lemma range_down_cons hi lo :
  lo < hi -> range_down hi lo = hi :: range_down (hi - 1) lo.
Proof.
  intros H. unfold range_down.
  replace (Z.to_nat (hi - lo)) with (S (Z.to_nat (hi - 1 - lo))) by lia.
  cbn [seq fmap list_fmap]. f_equal; [lia|].
  rewrite <- fmap_S_seq, <- list_fmap_compose.
  apply list_fmap_ext. intros _ k _. cbn. lia.
Qed.

Lemma in_range n i : In i (range n) <-> 0 <= i < n.
Proof.
  unfold range. rewrite in_map_iff. split.
  - intros (k & <- & Hk). apply in_seq in Hk. lia.
  - intros H. exists (Z.to_nat i). split; [lia|]. apply in_seq. lia.
Qed.

(** The first hit of a downward scan is the greatest one. *)
Lemma find_range_down (f : Z -> bool) lo hi :
  match find f (range_down hi lo) with
  | Some i => lo < i <= hi /\ f i = true /\
              forall j, i < j <= hi -> f j = false
  | None => forall j, lo < j <= hi -> f j = false
  end.
Proof.
  remember (Z.to_nat (hi - lo)) as m eqn:Hm.
  revert hi Hm. induction m as [|m IH]; intros hi Hm.
  - rewrite range_down_nil by lia. cbn. intros j Hj. lia.
  - rewrite range_down_cons by lia. cbn [find].
    destruct (f hi) eqn:Hf.
    + repeat split; [lia|lia|assumption|]. intros j Hj. lia.
    + specialize (IH (hi - 1) ltac:(lia)).
      destruct (find f (range_down (hi - 1) lo)) as [i|].
      * destruct IH as (Hi & Hfi & Hgt). repeat split; [lia|lia|assumption|].
        intros j Hj. destruct (Z.eq_dec j hi) as [->|]; [assumption|].
        apply Hgt. lia.
      * intros j Hj. destruct (Z.eq_dec j hi) as [->|]; [assumption|].
        apply IH. lia.
Qed.

(** ** Primality by trial division *)

Lemma is_prime_true_iff num : is_prime num = true <-> Z.prime num.
Proof.
  unfold is_prime. destruct (Z.ltb_spec num 2) as [Hlt|Hge].
  - split; [discriminate|]. intros Hp. apply Z.prime_ge_2 in Hp. lia.
  - rewrite forallb_forall. split.
    + intros Hall. split; [lia|].
      intros d Hd [q Hq].
      pose proof (Z.sqrt_spec num ltac:(lia)) as Hs. cbv zeta in Hs.
      set (s := Z.sqrt num) in *.
      assert (Hq0 : 0 < q) by nia.
      assert (Hq1 : 1 < q < num) by nia.
      assert (Hsmall : d <= s \/ q <= s).
      { destruct (Z_le_gt_dec d s) as [|Hd']; [now left|right].
        destruct (Z_le_gt_dec q s) as [|Hq']; [assumption|exfalso].
        pose proof (Z.sqrt_nonneg num) as Hs0. fold s in Hs0.
        assert ((s + 1) * (s + 1) <= q * d)
          by (apply Z.mul_le_mono_nonneg; lia).
        lia. }
      destruct Hsmall as [Hle|Hle].
      * specialize (Hall d). rewrite in_range_from in Hall.
        specialize (Hall ltac:(lia)).
        apply negb_true_iff, Z.eqb_neq in Hall. apply Hall.
        subst num. apply Z.mod_mul. lia.
      * specialize (Hall q). rewrite in_range_from in Hall.
        specialize (Hall ltac:(lia)).
        apply negb_true_iff, Z.eqb_neq in Hall. apply Hall.
        subst num. rewrite Z.mul_comm. apply Z.mod_mul. lia.
    + intros Hp i Hi. apply in_range_from in Hi.
      apply negb_true_iff, Z.eqb_neq. intros Hmod.
      pose proof (Z.sqrt_spec num ltac:(lia)) as Hs. cbv zeta in Hs.
      destruct Hp as [_ Hp].
      apply (Hp i); [nia|].
      apply Z.mod_divide; [lia|assumption].
Qed.

Lemma get_prime_less_than_spec n :
  let R := _get_prime_less_than n in
  (Z.prime R /\ R < n /\ forall p, Z.prime p -> p < n -> p <= R) \/
  (R = 1 /\ forall p, Z.prime p -> ~ p < n).
Proof.
  cbn. unfold _get_prime_less_than.
  pose proof (find_range_down is_prime 1 (n - 1)) as H.
  destruct (find is_prime (range_down (n - 1) 1)) as [i|].
  - left. destruct H as (Hi & Hp & Hmax). apply is_prime_true_iff in Hp.
    repeat split; [apply Hp|apply Hp|lia|].
    intros p Hpp Hlt. destruct (Z_le_gt_dec p i) as [|Hgt]; [assumption|].
    apply is_prime_true_iff in Hpp. rewrite Hmax in Hpp by lia. discriminate.
  - right. split; [reflexivity|]. intros p Hp Hlt.
    pose proof (Z.prime_ge_2 _ Hp). apply is_prime_true_iff in Hp.
    rewrite H in Hp by lia. discriminate.
Qed.

Lemma get_prime_less_than_pos n : 1 <= _get_prime_less_than n.
Proof.
  destruct (get_prime_less_than_spec n) as [(Hp & _)|(-> & _)]; [|lia].
  apply Z.prime_ge_2 in Hp. lia.
Qed.

Lemma get_prime_less_than_lt n : 2 <= n -> _get_prime_less_than n < n.
Proof.
  intros Hn.
  destruct (get_prime_less_than_spec n) as [(_ & H & _)|(-> & _)]; lia.
Qed.

(** ** The hash functions never raise on a table with a slot *)

Lemma pymod_ok a b : b <> 0 -> pymod a b = Ok (a mod b).
Proof. intros H. unfold pymod. apply Z.eqb_neq in H. now rewrite H. Qed.

Lemma hash1_ok self key :
  size self <> 0 -> _hash1 self key = Ok (ascii_sum key mod size self).
Proof. intros H. unfold _hash1. now apply pymod_ok. Qed.

Lemma hash2_ok self key :
  _hash2 self key =
  Ok (_get_prime_less_than (size self)
      - ascii_sum key mod _get_prime_less_than (size self)).
Proof.
  unfold _hash2. pose proof (get_prime_less_than_pos (size self)).
  rewrite pymod_ok by lia. reflexivity.
Qed.

Lemma probe_ok self key i :
  size self <> 0 -> _probe self key i = Ok (probe_pos (size self) key i).
Proof.
  intros H. unfold _probe. rewrite hash1_ok by assumption.
  rewrite hash2_ok. cbn. now apply pymod_ok.
Qed.

Lemma h2_range n key : 1 <= h2 n key <= _get_prime_less_than n.
Proof.
  unfold h2. pose proof (get_prime_less_than_pos n).
  pose proof (Z.mod_pos_bound (ascii_sum key) (_get_prime_less_than n)).
  lia.
Qed.

Lemma probe_pos_range n key i : 1 <= n -> 0 <= probe_pos n key i < n.
Proof. intros H. unfold probe_pos. apply Z.mod_pos_bound. lia. Qed.

(** ** Reading and writing slots *)

Lemma getitem_nonneg {A} (l : list A) (p : Z) :
  0 <= p -> getitem l p = match l !! Z.to_nat p with
                          | Some x => Ok x
                          | None => Raise IndexError
                          end.
Proof.
  intros H. unfold getitem.
  destruct (Z.ltb_spec p 0); [lia|]. destruct (Z.ltb_spec p 0); [lia|].
  reflexivity.
Qed.

Lemma getitem_Ok_lookup {A} (l : list A) (p : Z) x :
  0 <= p -> getitem l p = Ok x -> l !! Z.to_nat p = Some x.
Proof.
  intros H. rewrite getitem_nonneg by assumption.
  destruct (l !! Z.to_nat p); [congruence|discriminate].
Qed.

Lemma getitem_Ok_bound {A} (l : list A) (p : Z) x :
  0 <= p -> getitem l p = Ok x -> p < Z.of_nat (length l).
Proof.
  intros H Hg. apply getitem_Ok_lookup in Hg; [|assumption].
  apply lookup_lt_Some in Hg. lia.
Qed.

Lemma setitem_ok {A} (l : list A) (p : Z) x :
  0 <= p < Z.of_nat (length l) ->
  setitem l p x = Ok (<[Z.to_nat p := x]> l).
Proof.
  intros H. unfold setitem.
  destruct (Z.ltb_spec p 0); [lia|]. destruct (Z.ltb_spec p 0); [lia|].
  destruct (Z.leb_spec (Z.of_nat (length l)) p); [lia|]. reflexivity.
Qed.

(** ** Counter bumps *)

Lemma bump_0 self : bump self 0 = self.
Proof. destruct self. unfold bump, set_collision_count. cbn. f_equal. lia. Qed.

Lemma bump_bump self a b : bump (bump self a) b = bump self (a + b).
Proof. unfold bump, set_collision_count. cbn. f_equal. lia. Qed.

Lemma zeros_positive idx : Forall (fun i => 0 < i) idx -> zeros idx = 0.
Proof.
  induction 1 as [|i idx Hi _ IH]; [reflexivity|]. cbn.
  destruct (Z.eqb_spec i 0); lia.
Qed.

(** ** One turn of the loop of [insert] *)

Section InsertTurn.
Variables (product0 : Product) (key : str).
Variables (self : DoubleHashTable) (i : Z) (idx : list Z).
Variables (ps : list Z) (d : calc_details).
Hypothesis Hn : 1 <= size self.

Let pos := probe_pos (size self) key i.

Lemma insert_turn_free :
  slot_free (table self) pos = true ->
  exists d',
    insert_loop product0 key (i :: idx) self ps d =
    Ok (landed self product0 key i pos (ps ++ [pos]) d',
        (true, MsgInserted pos, ps ++ [pos])).
Proof.
  intros Hf. cbn [insert_loop]. rewrite probe_ok by lia. cbn [bind].
  fold pos. pose proof (probe_pos_range (size self) key i Hn) as Hp.
  fold pos in Hp. unfold slot_free in Hf.
  destruct (getitem (table self) pos) as [slot|] eqn:Hg; [|discriminate].
  pose proof (getitem_Ok_bound _ _ _ (proj1 Hp) Hg) as Hb.
  cbn [bind]. destruct slot as [e|].
  - unfold live_key, live. rewrite Hf. cbn [negb bind].
    rewrite setitem_ok by lia. cbn [bind]. unfold landed.
    destruct (i >? 0); [eexists; reflexivity|exists d; reflexivity].
  - cbn [live_key live bind]. rewrite setitem_ok by lia. cbn [bind].
    unfold landed. destruct (i >? 0); [eexists; reflexivity|exists d; reflexivity].
Qed.

Lemma insert_turn_same :
  slot_same key (table self) pos = true ->
  insert_loop product0 key (i :: idx) self ps d =
  Ok (self, (false, MsgExists, ps ++ [pos])).
Proof.
  intros Hs. cbn [insert_loop]. rewrite probe_ok by lia. cbn [bind].
  fold pos. unfold slot_same in Hs.
  destruct (getitem (table self) pos) as [[e|]|]; try discriminate.
  apply andb_true_iff in Hs as [Hd Hk]. apply negb_true_iff in Hd.
  destruct (product e) as [pr|] eqn:Hpr; [|discriminate].
  cbn [bind]. unfold live_key, product_key. rewrite Hd, Hpr. cbn [negb bind].
  rewrite Hk. reflexivity.
Qed.

Lemma insert_turn_other :
  slot_other key (table self) pos = true ->
  exists d',
    insert_loop product0 key (i :: idx) self ps d =
    insert_loop product0 key idx (bump self (zeros [i])) (ps ++ [pos]) d'.
Proof.
  intros Hs. cbn [insert_loop]. rewrite probe_ok by lia. cbn [bind].
  fold pos. unfold slot_other in Hs.
  destruct (getitem (table self) pos) as [[e|]|]; try discriminate.
  apply andb_true_iff in Hs as [Hd Hk]. apply negb_true_iff in Hd.
  destruct (product e) as [pr|] eqn:Hpr; [|discriminate].
  apply negb_true_iff in Hk.
  cbn [bind]. unfold live_key, product_key. rewrite Hd, Hpr. cbn [negb bind].
  rewrite Hk. eexists. f_equal. cbn [zeros].
  destruct (i =? 0); [reflexivity|]. symmetry. apply bump_0.
Qed.

(** A turn that does not raise found one of the three. *)
Lemma insert_turn_cases r :
  insert_loop product0 key (i :: idx) self ps d = Ok r ->
  slot_free (table self) pos = true \/
  slot_same key (table self) pos = true \/
  slot_other key (table self) pos = true.
Proof.
  cbn [insert_loop]. rewrite probe_ok by lia. cbn [bind]. fold pos.
  unfold slot_free, slot_same, slot_other.
  destruct (getitem (table self) pos) as [[e|]|]; [| now left |discriminate].
  cbn [bind]. unfold live_key, product_key.
  destruct (is_deleted e); [now left|]. cbn [negb].
  destruct (product e) as [pr|]; [|discriminate]. cbn [bind andb].
  destruct (str_eqb (ma_san_pham pr) key); [right; now left|].
  right; now right.
Qed.
End InsertTurn.

(** ** What the loop of [insert] returns *)

Lemma insert_loop_inv product0 key idx :
  forall self ps d r,
    1 <= size self ->
    insert_loop product0 key idx self ps d = Ok r ->
    let pos := probe_pos (size self) key in
    exists pre,
      Forall (fun i => slot_other key (table self) (pos i) = true) pre /\
      ((idx = pre /\
        r = (bump self (zeros pre),
             (false, MsgCouldNotInsert, ps ++ (pos <$> pre)))) \/
       (exists i rest,
          idx = pre ++ i :: rest /\
          slot_same key (table self) (pos i) = true /\
          r = (bump self (zeros pre),
               (false, MsgExists, ps ++ (pos <$> pre) ++ [pos i]))) \/
       (exists i rest d',
          idx = pre ++ i :: rest /\
          slot_free (table self) (pos i) = true /\
          r = (landed (bump self (zeros pre)) product0 key i (pos i)
                 (ps ++ (pos <$> pre) ++ [pos i]) d',
               (true, MsgInserted (pos i),
                ps ++ (pos <$> pre) ++ [pos i])))).
Proof.
  induction idx as [|i idx IH]; intros self ps d r Hn Hr pos.
  - cbn in Hr. injection Hr as <-. exists []. split; [constructor|].
    left. split; [reflexivity|]. cbn. rewrite bump_0, app_nil_r. reflexivity.
  - destruct (insert_turn_cases _ _ _ _ _ _ _ Hn _ Hr) as [Hf|[Hs|Ho]].
    + destruct (insert_turn_free product0 key self i idx ps d Hn Hf)
        as [d' Heq].
      rewrite Heq in Hr. injection Hr as <-.
      exists []. split; [constructor|]. right; right.
      exists i, idx, d'. cbn. rewrite bump_0. auto.
    + rewrite (insert_turn_same product0 key self i idx ps d Hn Hs) in Hr.
      injection Hr as <-. exists []. split; [constructor|]. right; left.
      exists i, idx. cbn. rewrite bump_0. auto.
    + destruct (insert_turn_other product0 key self i idx ps d Hn Ho)
        as [d' Heq].
      rewrite Heq in Hr. apply IH in Hr; [|exact Hn].
      cbn zeta in Hr. change (size (bump self (zeros [i]))) with (size self) in Hr.
      change (table (bump self (zeros [i]))) with (table self) in Hr.
      fold pos in Hr.
      destruct Hr as (pre & Hpre & Hcases). exists (i :: pre).
      split; [constructor; assumption|].
      rewrite !bump_bump in Hcases.
      replace (zeros [i] + zeros pre) with (zeros (i :: pre)) in Hcases
        by (cbn; lia).
      cbn [fmap list_fmap app].
      destruct Hcases as [(-> & ->)|[(j & rest & -> & Hs & ->)
                                    |(j & rest & d'' & -> & Hs & ->)]].
      * left. by rewrite <- app_assoc.
      * right; left. exists j, rest. by rewrite <- !app_assoc.
      * right; right. exists j, rest, d''. by rewrite <- !app_assoc.
Qed.

(** ** One turn of the loop of [search] *)

Section SearchTurn.
Variables (key : str).
Variables (self : DoubleHashTable) (i : Z) (idx : list Z).
Variables (ps : list Z) (d : calc_details).
Hypothesis Hn : 1 <= size self.

Let pos := probe_pos (size self) key i.

Lemma search_turn_empty :
  slot_empty (table self) pos = true ->
  exists d',
    search_loop key (i :: idx) self ps d =
    Ok (search_logged self key i (ps ++ [pos]) (ResSearchFailed i pos) d',
        (None, -1, ps ++ [pos])).
Proof.
  intros He. cbn [search_loop]. rewrite probe_ok by lia. cbn [bind].
  fold pos. unfold slot_empty in He.
  destruct (getitem (table self) pos) as [[e|]|]; try discriminate.
  cbn [bind live_key]. unfold search_logged.
  destruct (i >? 0); [eexists; reflexivity|exists d; reflexivity].
Qed.

Lemma search_turn_same :
  slot_same key (table self) pos = true ->
  exists d' e,
    getitem (table self) pos = Ok (Some e) /\
    search_loop key (i :: idx) self ps d =
    Ok (search_logged self key i (ps ++ [pos]) (ResSearchFound i pos) d',
        (product e, pos, ps ++ [pos])).
Proof.
  intros Hs. cbn [search_loop]. rewrite probe_ok by lia. cbn [bind].
  fold pos. unfold slot_same in Hs.
  destruct (getitem (table self) pos) as [[e|]|]; try discriminate.
  apply andb_true_iff in Hs as [Hd Hk]. apply negb_true_iff in Hd.
  destruct (product e) as [pr|] eqn:Hpr; [|discriminate].
  cbn [bind]. unfold live_key, product_key. rewrite Hd, Hpr. cbn [negb bind].
  rewrite Hk. unfold search_logged.
  destruct (i >? 0);
    [eexists; exists e; rewrite Hpr; split; reflexivity
    |exists d, e; rewrite Hpr; split; reflexivity].
Qed.

Lemma search_turn_skip :
  slot_skip key (table self) pos = true ->
  exists d',
    search_loop key (i :: idx) self ps d =
    search_loop key idx self (ps ++ [pos]) d'.
Proof.
  intros Hs. cbn [search_loop]. rewrite probe_ok by lia. cbn [bind].
  fold pos. unfold slot_skip in Hs.
  destruct (getitem (table self) pos) as [[e|]|]; try discriminate.
  cbn [bind]. unfold live_key, product_key.
  destruct (is_deleted e); cbn [negb bind]; [eexists; reflexivity|].
  cbn [orb] in Hs.
  destruct (product e) as [pr|] eqn:Hpr; [|discriminate].
  apply negb_true_iff in Hs. cbn [bind]. rewrite Hs.
  eexists; reflexivity.
Qed.

Lemma search_turn_cases r :
  search_loop key (i :: idx) self ps d = Ok r ->
  slot_empty (table self) pos = true \/
  slot_same key (table self) pos = true \/
  slot_skip key (table self) pos = true.
Proof.
  cbn [search_loop]. rewrite probe_ok by lia. cbn [bind]. fold pos.
  unfold slot_empty, slot_same, slot_skip.
  destruct (getitem (table self) pos) as [[e|]|]; [| now left |discriminate].
  cbn [bind]. unfold live_key, product_key.
  destruct (is_deleted e); [right; now right|]. cbn [negb].
  destruct (product e) as [pr|]; [|discriminate]. cbn [bind andb orb].
  destruct (str_eqb (ma_san_pham pr) key); [right; now left|].
  right; now right.
Qed.
End SearchTurn.

(** ** What the loop of [search] returns *)

Lemma search_loop_inv key idx :
  forall self ps d r,
    1 <= size self ->
    search_loop key idx self ps d = Ok r ->
    let pos := probe_pos (size self) key in
    exists pre,
      Forall (fun i => slot_skip key (table self) (pos i) = true) pre /\
      ((idx = pre /\ r = (self, (None, -1, ps ++ (pos <$> pre)))) \/
       (exists i rest d',
          idx = pre ++ i :: rest /\
          slot_empty (table self) (pos i) = true /\
          r = (search_logged self key i (ps ++ (pos <$> pre) ++ [pos i])
                 (ResSearchFailed i (pos i)) d',
               (None, -1, ps ++ (pos <$> pre) ++ [pos i]))) \/
       (exists i rest d' e,
          idx = pre ++ i :: rest /\
          getitem (table self) (pos i) = Ok (Some e) /\
          slot_same key (table self) (pos i) = true /\
          r = (search_logged self key i (ps ++ (pos <$> pre) ++ [pos i])
                 (ResSearchFound i (pos i)) d',
               (product e, pos i, ps ++ (pos <$> pre) ++ [pos i])))).
Proof.
  induction idx as [|i idx IH]; intros self ps d r Hn Hr pos.
  - cbn in Hr. injection Hr as <-. exists []. split; [constructor|].
    left. split; [reflexivity|]. cbn. by rewrite app_nil_r.
  - destruct (search_turn_cases _ _ _ _ _ _ Hn _ Hr) as [He|[Hs|Hk]].
    + destruct (search_turn_empty key self i idx ps d Hn He) as [d' Heq].
      rewrite Heq in Hr. injection Hr as <-.
      exists []. split; [constructor|]. right; left. by exists i, idx, d'.
    + destruct (search_turn_same key self i idx ps d Hn Hs)
        as (d' & e & Hg & Heq).
      rewrite Heq in Hr. injection Hr as <-.
      exists []. split; [constructor|]. right; right. by exists i, idx, d', e.
    + destruct (search_turn_skip key self i idx ps d Hn Hk) as [d' Heq].
      rewrite Heq in Hr. apply IH in Hr; [|exact Hn]. cbn zeta in Hr.
      fold pos in Hr. destruct Hr as (pre & Hpre & Hcases).
      exists (i :: pre). split; [constructor; assumption|].
      cbn [fmap list_fmap app].
      destruct Hcases as [(-> & ->)|[(j & rest & d'' & -> & Hs & ->)
                                    |(j & rest & d'' & e & -> & Hg & Hs & ->)]].
      * left. by rewrite <- app_assoc.
      * right; left. exists j, rest, d''. by rewrite <- !app_assoc.
      * right; right. exists j, rest, d'', e. by rewrite <- !app_assoc.
Qed.

(** ** Prefixes of [range n] *)

Lemma range_prefix n pre rest :
  range n = pre ++ rest -> pre = Z.of_nat <$> seq 0 (length pre).
Proof.
  intros H. apply (f_equal (take (length pre))) in H.
  rewrite take_app_length in H. rewrite <- H at 1. unfold range.
  rewrite <- fmap_take, take_seq. f_equal. f_equal.
  apply (f_equal length) in H. rewrite length_take in H.
  unfold range in H. rewrite length_fmap, length_seq in H. lia.
Qed.

Lemma range_split_index n pre i rest :
  range n = pre ++ i :: rest -> i = Z.of_nat (length pre).
Proof.
  intros H. change (pre ++ i :: rest) with (pre ++ [i] ++ rest) in H.
  rewrite app_assoc in H. apply range_prefix in H.
  rewrite length_app, Nat.add_comm in H. cbn [length Nat.add] in H.
  rewrite seq_S, fmap_app in H. cbn in H.
  apply app_inj_tail in H. apply H.
Qed.

Lemma zeros_range_prefix n pre rest :
  range n = pre ++ rest ->
  zeros pre = match pre with [] => 0 | _ :: _ => 1 end.
Proof.
  intros H. apply range_prefix in H. destruct pre as [|j pre]; [reflexivity|].
  cbn [length] in H. cbn [seq fmap list_fmap] in H. injection H as -> Hpre.
  cbn. rewrite zeros_positive; [reflexivity|]. rewrite Hpre.
  apply Forall_forall. intros x Hx. apply list_elem_of_In in Hx.
  apply in_map_iff in Hx as (k & <- & Hk). apply in_seq in Hk. lia.
Qed.

(** ** What [insert] and [search] return *)

Lemma details_init_ok self key :
  size self <> 0 -> exists d, details_init self key = Ok d.
Proof.
  intros H. unfold details_init. rewrite hash1_ok by assumption.
  rewrite hash2_ok. cbn. eexists; reflexivity.
Qed.

Lemma details_init_zero self key :
  size self = 0 -> exists e, details_init self key = Raise e.
Proof.
  intros H. unfold details_init, _hash1, pymod. rewrite H. cbn.
  eexists; reflexivity.
Qed.

Lemma range_nonpos n : n <= 0 -> range n = [].
Proof.
  intros H. unfold range. replace (Z.to_nat n) with 0%nat by lia. reflexivity.
Qed.

Lemma insert_inv self p r :
  insert self p = Ok r ->
  (count self >= size self /\ r = (self, (false, MsgFull, []))) \/
  (count self < size self /\ size self < 0 /\
   r = (self, (false, MsgCouldNotInsert, []))) \/
  (count self < size self /\ 1 <= size self /\
   exists d, insert_loop p (ma_san_pham p) (range (size self)) self [] d
             = Ok r).
Proof.
  unfold insert. destruct (Z.geb_spec (count self) (size self)) as [Hge|Hlt].
  - intros [= <-]. left. split; [lia|reflexivity].
  - intros Hr. right. destruct (Z.eq_dec (size self) 0) as [H0|H0].
    + destruct (details_init_zero self (ma_san_pham p) H0) as [e He].
      rewrite He in Hr. discriminate.
    + destruct (details_init_ok self (ma_san_pham p) H0) as [d Hd].
      rewrite Hd in Hr. cbn [bind] in Hr.
      destruct (Z_lt_le_dec (size self) 0) as [Hneg|Hpos].
      * left. rewrite range_nonpos in Hr by lia. cbn in Hr.
        injection Hr as <-. done.
      * right. split; [lia|]. split; [lia|]. by exists d.
Qed.

Lemma search_inv self key r :
  search self key = Ok r ->
  (size self < 0 /\ r = (self, (None, -1, []))) \/
  (1 <= size self /\
   exists d, search_loop key (range (size self)) self [] d = Ok r).
Proof.
  unfold search. intros Hr. destruct (Z.eq_dec (size self) 0) as [H0|H0].
  - destruct (details_init_zero self key H0) as [e He].
    rewrite He in Hr. discriminate.
  - destruct (details_init_ok self key H0) as [d Hd].
    rewrite Hd in Hr. cbn [bind] in Hr.
    destruct (Z_lt_le_dec (size self) 0) as [Hneg|Hpos].
    + left. rewrite range_nonpos in Hr by lia. cbn in Hr.
      injection Hr as <-. done.
    + right. split; [lia|]. by exists d.
Qed.

Lemma insert_success_inv self p self' msg ps :
  insert self p = Ok (self', (true, msg, ps)) ->
  let key := ma_san_pham p in
  let pos := probe_pos (size self) key in
  1 <= size self /\ count self < size self /\
  exists pre i rest d,
    range (size self) = pre ++ i :: rest /\
    Forall (fun j => slot_other key (table self) (pos j) = true) pre /\
    slot_free (table self) (pos i) = true /\
    ps = (pos <$> pre) ++ [pos i] /\
    msg = MsgInserted (pos i) /\
    self' = landed (bump self (zeros pre)) p key i (pos i) ps d.
Proof.
  intros Hr key pos.
  apply insert_inv in Hr as [(_ & [=])|[(_ & _ & [=])|(Hc & Hn & d & Hr)]].
  split; [assumption|]. split; [assumption|].
  apply insert_loop_inv in Hr; [|assumption]. cbn zeta in Hr.
  fold key pos in Hr.
  destruct Hr as (pre & Hpre & [(_ & [=])|[(i & rest & _ & _ & [=])
                                          |(i & rest & d' & Hidx & Hf & Heq)]]).
  cbn [app] in Heq. injection Heq as -> -> ->.
  by exists pre, i, rest, d'.
Qed.

Lemma insert_failure_inv self p self' msg ps :
  insert self p = Ok (self', (false, msg, ps)) ->
  exists k, self' = bump self k.
Proof.
  intros Hr.
  apply insert_inv in Hr as [(_ & [= -> _ _])|[(_ & _ & [= -> _ _])
                                              |(Hc & Hn & d & Hr)]];
    try (exists 0; by rewrite bump_0).
  apply insert_loop_inv in Hr; [|assumption]. cbn zeta in Hr.
  destruct Hr as (pre & Hpre & [(_ & [= -> _ _])
                               |[(i & rest & _ & _ & [= -> _ _])
                                |(i & rest & d' & _ & _ & [=])]]);
    by eexists.
Qed.

Lemma logs_landed self p key i pos ps d :
  collision_logs (landed self p key i pos ps d) =
  if i >? 0
  then collision_logs self ++
       [CollisionLog_init key "INSERT" ps (ResInsert i pos) (Some (DictCalc d))]
  else collision_logs self.
Proof. unfold landed. destruct (i >? 0); reflexivity. Qed.

Lemma collision_count_landed self p key i pos ps d :
  collision_count (landed self p key i pos ps d) =
  collision_count self + (if i >? 0 then 1 else 0).
Proof. unfold landed. destruct (i >? 0); cbn; lia. Qed.

Lemma table_landed self p key i pos ps d :
  table (landed self p key i pos ps d) =
  <[Z.to_nat pos := Some {| product := Some p; is_deleted := false |}]>
    (table self).
Proof. unfold landed. destruct (i >? 0); reflexivity. Qed.

Lemma size_landed self p key i pos ps d :
  size (landed self p key i pos ps d) = size self.
Proof. unfold landed. destruct (i >? 0); reflexivity. Qed.

Lemma count_landed self p key i pos ps d :
  count (landed self p key i pos ps d) = count self + 1.
Proof. unfold landed. destruct (i >? 0); reflexivity. Qed.

(** The attempt on which a walk over [range n] stopped, read off the
    length of its probe sequence. *)
Lemma stop_attempt n (f : Z -> Z) pre i rest :
  range n = pre ++ i :: rest ->
  (i >? 0) = (1 <? Z.of_nat (length ((f <$> pre) ++ [f i]))).
Proof.
  intros H. apply range_split_index in H. subst i.
  rewrite length_app, length_fmap. cbn [length].
  destruct (Z.gtb_spec (Z.of_nat (length pre)) 0),
           (Z.ltb_spec 1 (Z.of_nat (length pre + 1))); lia || reflexivity.
Qed.

Lemma insert_logs self p self' ok msg ps :
  insert self p = Ok (self', (ok, msg, ps)) ->
  if ok && (1 <? Z.of_nat (length ps))
  then exists res d,
         collision_logs self' =
         collision_logs self ++
         [CollisionLog_init (ma_san_pham p) "INSERT" ps res
            (Some (DictCalc d))]
  else collision_logs self' = collision_logs self.
Proof.
  intros Hr. destruct ok.
  - apply insert_success_inv in Hr. cbn zeta in Hr.
    destruct Hr as (Hn & _ & pre & i & rest & d & Hidx & _ & _ & Hps & _ & ->).
    rewrite logs_landed. cbn [andb].
    rewrite (stop_attempt _ (probe_pos (size self) (ma_san_pham p)) _ _ _ Hidx).
    rewrite <- Hps.
    destruct (1 <? Z.of_nat (length ps)); [by eexists _, _|reflexivity].
  - apply insert_failure_inv in Hr as [k ->]. reflexivity.
Qed.

Lemma search_outcome self key self' found pos0 ps :
  search self key = Ok (self', (found, pos0, ps)) ->
  let pos := probe_pos (size self) key in
  (found = None /\ pos0 = -1 /\ self' = self /\
   ((size self < 0 /\ ps = []) \/
    (1 <= size self /\
     Forall (fun j => slot_skip key (table self) (pos j) = true)
            (range (size self)) /\
     ps = pos <$> range (size self)))) \/
  (1 <= size self /\
   exists pre i rest d,
     range (size self) = pre ++ i :: rest /\
     Forall (fun j => slot_skip key (table self) (pos j) = true) pre /\
     ps = (pos <$> pre) ++ [pos i] /\
     ((slot_empty (table self) (pos i) = true /\
       found = None /\ pos0 = -1 /\
       self' = search_logged self key i ps (ResSearchFailed i (pos i)) d) \/
      (exists e,
         getitem (table self) (pos i) = Ok (Some e) /\
         slot_same key (table self) (pos i) = true /\
         found = product e /\ pos0 = pos i /\
         self' = search_logged self key i ps (ResSearchFound i (pos i)) d))).
Proof.
  intros Hr pos.
  apply search_inv in Hr as [(Hneg & [= -> -> -> ->])|(Hn & d & Hr)].
  { left. repeat split; try reflexivity. left. done. }
  apply search_loop_inv in Hr; [|assumption]. cbn zeta in Hr. fold pos in Hr.
  destruct Hr as (pre & Hpre & [(Hidx & Heq)|[(i & rest & d' & Hidx & He & Heq)
                                  |(i & rest & d' & e & Hidx & Hg & Hs & Heq)]]);
    cbn [app] in Heq; injection Heq as -> -> -> ->.
  - left. repeat split; try reflexivity. right. subst pre. done.
  - right. split; [assumption|]. exists pre, i, rest, d'.
    repeat split; try assumption. left. done.
  - right. split; [assumption|]. exists pre, i, rest, d'.
    repeat split; try assumption. right. exists e. done.
Qed.

Lemma search_logged_frame self key i ps res d :
  size (search_logged self key i ps res d) = size self /\
  table (search_logged self key i ps res d) = table self /\
  count (search_logged self key i ps res d) = count self /\
  collision_count (search_logged self key i ps res d) = collision_count self.
Proof. unfold search_logged. destruct (i >? 0); done. Qed.

(** [search] touches nothing but the log. *)
Lemma search_frame self key self' r :
  search self key = Ok (self', r) ->
  size self' = size self /\ table self' = table self /\
  count self' = count self /\ collision_count self' = collision_count self.
Proof.
  destruct r as [[found pos0] ps]. intros Hr.
  apply search_outcome in Hr. cbn zeta in Hr.
  destruct Hr as [(_ & _ & -> & _)|(_ & pre & i & rest & d & _ & _ & _ & H)];
    [done|].
  destruct H as [(_ & _ & _ & ->)|(e & _ & _ & _ & _ & ->)];
    apply search_logged_frame.
Qed.

Lemma slot_same_product key tbl p e :
  getitem tbl p = Ok (Some e) -> slot_same key tbl p = true ->
  is_deleted e = false /\
  exists pr, product e = Some pr /\ ma_san_pham pr = key.
Proof.
  intros Hg. unfold slot_same. rewrite Hg. intros H.
  apply andb_true_iff in H as [Hd Hk]. apply negb_true_iff in Hd.
  split; [assumption|]. destruct (product e) as [pr|]; [|discriminate].
  exists pr. split; [reflexivity|]. by apply str_eqb_eq.
Qed.

Lemma slot_skip_not_empty key tbl p :
  slot_skip key tbl p = true -> slot_empty tbl p = false.
Proof.
  unfold slot_skip, slot_empty. by destruct (getitem tbl p) as [[e|]|].
Qed.

Lemma search_logs self key self' found pos0 ps :
  search self key = Ok (self', (found, pos0, ps)) ->
  if search_stopped (table self) found ps && (1 <? Z.of_nat (length ps))
  then exists res d,
         collision_logs self' =
         collision_logs self ++
         [CollisionLog_init key "SEARCH" ps res (Some (DictCalc d))]
  else collision_logs self' = collision_logs self.
Proof.
  intros Hr. apply search_outcome in Hr. cbn zeta in Hr.
  set (pos := probe_pos (size self) key) in *.
  destruct Hr as [(-> & _ & -> & Hex)
                 |(Hn & pre & i & rest & d & Hidx & Hpre & Hps & Hend)].
  - replace (search_stopped (table self) None ps) with false; [reflexivity|].
    unfold search_stopped. destruct Hex as [(_ & ->)|(Hn & Hall & ->)];
      [reflexivity|].
    rewrite fmap_last. destruct (last (range (size self))) as [j|] eqn:Hl;
      [|reflexivity].
    cbn. symmetry. eapply slot_skip_not_empty.
    rewrite Forall_forall in Hall. apply Hall. by apply last_Some_elem_of.
  - assert (Hst : search_stopped (table self) found ps = true).
    { unfold search_stopped.
      destruct Hend as [(He & -> & _)|(e & Hg & Hs & -> & _)].
      - by rewrite Hps, last_snoc.
      - destruct (slot_same_product _ _ _ _ Hg Hs) as (_ & pr & -> & _).
        reflexivity. }
    rewrite Hst. cbn [andb].
    assert (Hl : collision_logs self' =
                 if i >? 0
                 then collision_logs self ++
                      [CollisionLog_init key "SEARCH" ps
                         match found with
                         | Some _ => ResSearchFound i (pos i)
                         | None => ResSearchFailed i (pos i)
                         end
                         (Some (DictCalc d))]
                 else collision_logs self).
    { destruct Hend as [(He & -> & _ & ->)|(e & Hg & Hs & -> & _ & ->)];
        unfold search_logged.
      - by destruct (i >? 0).
      - destruct (slot_same_product _ _ _ _ Hg Hs) as (_ & pr & -> & _).
        by destruct (i >? 0). }
    rewrite Hl, (stop_attempt _ pos _ _ _ Hidx), <- Hps.
    destruct (1 <? Z.of_nat (length ps)); [by eexists _, _|reflexivity].
Qed.

(** ** What [delete] returns *)

Lemma delete_inv self key self' ok msg ps :
  delete self key = Ok (self', (ok, msg, ps)) ->
  exists self1 found pos0,
    search self key = Ok (self1, (found, pos0, ps)) /\
    ((found = None /\ self' = self1 /\ ok = false /\ msg = MsgNotFound) \/
     (exists pr e,
        found = Some pr /\ getitem (table self1) pos0 = Ok (Some e) /\
        ok = true /\ msg = MsgDeleted pos0 /\
        self' =
        set_count
          (set_table self1
             (<[Z.to_nat pos0 := Some {| product := product e;
                                         is_deleted := true |}]>
                (table self1)))
          (count self1 - 1))).
Proof.
  unfold delete. intros Hr.
  destruct (search self key) as [[self1 [[found pos0] ps1]]|] eqn:Hs;
    [|discriminate].
  cbn [bind] in Hr. destruct found as [pr|].
  - destruct (getitem (table self1) pos0) as [[e|]|] eqn:Hg; try discriminate.
    cbn [bind] in Hr.
    pose proof Hs as Hout. apply search_outcome in Hout. cbn zeta in Hout.
    destruct Hout as [([=] & _)|(Hn & pre & i & rest & d & _ & _ & _ & Hend)].
    destruct Hend as [(_ & [=] & _)|(e' & Hg' & _ & _ & -> & _)].
    pose proof (probe_pos_range (size self) key i Hn) as Hp.
    rewrite setitem_ok in Hr.
    + cbn [bind] in Hr. injection Hr as <- <- <- <-.
      exists self1, (Some pr), (probe_pos (size self) key i).
      split; [reflexivity|]. right. by exists pr, e.
    + split; [lia|]. eapply getitem_Ok_bound; [lia|exact Hg].
  - injection Hr as <- <- <- <-. exists self1, None, pos0.
    split; [reflexivity|]. by left.
Qed.

(** [delete] appends to the log exactly what its [search] does. *)
Lemma delete_logs self key self' r :
  delete self key = Ok (self', r) ->
  exists self1 found pos0,
    search self key = Ok (self1, (found, pos0, snd r)) /\
    collision_logs self' = collision_logs self1.
Proof.
  destruct r as [[ok msg] ps]. intros Hr.
  apply delete_inv in Hr as (self1 & found & pos0 & Hs & H).
  exists self1, found, pos0. split; [exact Hs|].
  destruct H as [(_ & -> & _)|(pr & e & _ & _ & _ & _ & ->)]; reflexivity.
Qed.

Lemma slot_free_not_other key tbl p :
  slot_free tbl p = true -> slot_other key tbl p = false.
Proof.
  unfold slot_free, slot_other.
  destruct (getitem tbl p) as [[e|]|]; try reflexivity.
  by intros ->.
Qed.

(** ** The log along a sequence of calls *)

Lemma constructed_init key operation ps res d :
  constructed (CollisionLog_init key operation ps res (Some d)).
Proof. unfold constructed. cbn. by destruct d. Qed.

Lemma step_logs self o self' :
  step self o = Ok self' ->
  collision_logs self' = collision_logs self \/
  exists key (operation : str) ps res d,
    (operation = "INSERT" \/ operation = "SEARCH")%string /\
    collision_logs self' =
    collision_logs self ++
    [CollisionLog_init key operation ps res (Some (DictCalc d))].
Proof.
  destruct o as [p|key|key]; cbn [step].
  - destruct (insert self p) as [[self1 [[ok msg] ps]]|] eqn:Hr; [|discriminate].
    cbn. intros [= <-]. apply insert_logs in Hr.
    destruct (ok && (1 <? Z.of_nat (length ps))); [|by left].
    destruct Hr as (res & d & ->). right.
    exists (ma_san_pham p), ("INSERT" : str), ps, res, d. split; [by left|done].
  - destruct (search self key) as [[self1 [[found pos0] ps]]|] eqn:Hr;
      [|discriminate].
    cbn. intros [= <-]. apply search_logs in Hr.
    destruct (search_stopped (table self) found ps
              && (1 <? Z.of_nat (length ps))); [|by left].
    destruct Hr as (res & d & ->). right.
    exists key, ("SEARCH" : str), ps, res, d. split; [by right|done].
  - destruct (delete self key) as [[self1 r]|] eqn:Hr; [|discriminate].
    cbn. intros [= <-].
    apply delete_logs in Hr as (self2 & found & pos0 & Hs & ->).
    apply search_logs in Hs.
    destruct (search_stopped (table self) found (snd r)
              && (1 <? Z.of_nat (length (snd r)))); [|by left].
    destruct Hs as (res & d & ->). right.
    exists key, ("SEARCH" : str), (snd r), res, d. split; [by right|done].
Qed.

Lemma reachable_logs n self :
  reachable n self ->
  Forall (fun log =>
            (log_operation log = "INSERT" \/ log_operation log = "SEARCH")%string
            /\ constructed log)
         (collision_logs self).
Proof.
  induction 1 as [|self o self' _ IH Hstep]; [constructor|].
  apply step_logs in Hstep as [->|(key & operation & ps & res & d & Hop & ->)];
    [assumption|].
  apply Forall_app. split; [assumption|]. constructor; [|constructor].
  split; [exact Hop|apply constructed_init].
Qed.

(** ** Export and import *)

Lemma product_roundtrip p : ProductM.from_dict (ProductM.to_dict p) = p.
Proof. by destruct p. Qed.

Lemma entry_roundtrip e :
  HashEntryM.truthy (HashEntryM.to_dict e) = true /\
  HashEntryM.from_dict (HashEntryM.to_dict e) = e.
Proof.
  split; [reflexivity|]. destruct e as [[p|] deleted]; cbn.
  - unfold HashEntryM.from_dict. cbn. by rewrite product_roundtrip.
  - reflexivity.
Qed.

Lemma slots_roundtrip (tbl : list (option HashEntry)) :
  (fun entry : option entry_dict =>
     match entry with
     | Some d => if HashEntryM.truthy d
                 then Some (HashEntryM.from_dict d) else None
     | None => None
     end) <$>
  ((fun entry : option HashEntry =>
      match entry with
      | Some e => Some (HashEntryM.to_dict e)
      | None => None
      end) <$> tbl) = tbl.
Proof.
  rewrite <- list_fmap_compose. rewrite <- (list_fmap_id tbl) at 2.
  apply list_fmap_ext. intros _ [e|] _; [|reflexivity].
  destruct (entry_roundtrip e) as [Ht Hf]. cbv [compose]. by rewrite Ht, Hf.
Qed.

Lemma logs_roundtrip self :
  Forall constructed (collision_logs self) ->
  log_from_dict <$> get_collision_logs self = collision_logs self.
Proof.
  unfold get_collision_logs. rewrite <- list_fmap_compose.
  induction 1 as [|log logs Hlog _ IH]; [reflexivity|].
  cbn [fmap list_fmap]. f_equal; [|exact IH].
  unfold compose, log_from_dict. cbn. symmetry. exact Hlog.
Qed.

(** ** Probing a well-formed table *)

Lemma coprime_probe_covers n key q :
  1 <= n -> Z.gcd (h2 n key) n = 1 -> 0 <= q < n ->
  exists i, 0 <= i < n /\ probe_pos n key i = q.
Proof.
  intros Hn Hg Hq.
  destruct (Z.gcd_bezout _ _ _ Hg) as (a & b & Hab).
  exists (((q - h1 n key) * a) mod n). split; [apply Z.mod_pos_bound; lia|].
  unfold probe_pos.
  rewrite <- Zplus_mod_idemp_r, Zmult_mod_idemp_l, Zplus_mod_idemp_r.
  assert (Ha : a * h2 n key = 1 - b * n) by lia.
  replace (h1 n key + (q - h1 n key) * a * h2 n key)
    with (q + (- ((q - h1 n key) * b)) * n).
  2:{ rewrite <- Z.mul_assoc, Ha. ring. }
  rewrite Z_mod_plus_full. apply Z.mod_small. lia.
Qed.

Lemma occupied_bound tbl : 0 <= occupied tbl <= Z.of_nat (length tbl).
Proof.
  induction tbl as [|slot tbl IH]; cbn [occupied length]; [lia|].
  destruct (live slot); lia.
Qed.

(** A table with fewer live entries than slots has a slot that is not
    live. *)
Lemma occupied_lt_free tbl :
  occupied tbl < Z.of_nat (length tbl) ->
  exists (j : nat) slot, tbl !! j = Some slot /\ live slot = false.
Proof.
  induction tbl as [|slot tbl IH]; cbn [occupied length]; [lia|].
  intros H. destruct (live slot) eqn:Hl.
  - destruct IH as (j & s & Hj & Hs); [lia|]. by exists (S j), s.
  - by exists 0%nat, slot.
Qed.

Lemma slot_free_lookup tbl (j : nat) slot :
  tbl !! j = Some slot -> live slot = false ->
  slot_free tbl (Z.of_nat j) = true.
Proof.
  intros Hj Hl. unfold slot_free. rewrite getitem_nonneg by lia.
  rewrite Nat2Z.id, Hj. destruct slot as [e|]; [|reflexivity].
  cbn in Hl. by apply negb_false_iff in Hl.
Qed.

Lemma table_ok_bump self k : table_ok self -> table_ok (bump self k).
Proof. intros [H1 H2 H3 H4]. by constructor. Qed.

(** Under [table_ok] every probed slot is of one of the three kinds. *)
Lemma table_ok_slot_cases self key p :
  table_ok self -> 0 <= p < size self ->
  slot_free (table self) p = true \/
  slot_same key (table self) p = true \/
  slot_other key (table self) p = true.
Proof.
  intros [Hn Hlen Hc Hprod] Hp.
  unfold slot_free, slot_same, slot_other. rewrite getitem_nonneg by lia.
  destruct (table self !! Z.to_nat p) as [slot|] eqn:Hl.
  - destruct slot as [e|]; [|by left].
    destruct (is_deleted e) eqn:Hd; [by left|]. cbn [negb andb].
    specialize (Hprod _ _ Hl Hd). destruct (product e) as [pr|]; [|done].
    destruct (str_eqb (ma_san_pham pr) key); [right; by left|right; by right].
  - apply lookup_ge_None in Hl. lia.
Qed.

(** The loop of [insert] never raises on a well-formed table. *)
Lemma insert_loop_returns product0 key idx :
  forall self ps d,
    table_ok self ->
    exists r, insert_loop product0 key idx self ps d = Ok r.
Proof.
  induction idx as [|i idx IH]; intros self ps d Hok.
  - eexists; reflexivity.
  - pose proof (ok_size _ Hok) as Hn.
    pose proof (probe_pos_range (size self) key i Hn) as Hp.
    destruct (table_ok_slot_cases self key _ Hok Hp) as [Hf|[Hs|Ho]].
    + destruct (insert_turn_free product0 key self i idx ps d Hn Hf)
        as [d' ->]. by eexists.
    + rewrite (insert_turn_same product0 key self i idx ps d Hn Hs).
      by eexists.
    + destruct (insert_turn_other product0 key self i idx ps d Hn Ho)
        as [d' ->]. apply IH. by apply table_ok_bump.
Qed.

Lemma insert_returns self p :
  table_ok self -> exists r, insert self p = Ok r.
Proof.
  intros Hok. unfold insert.
  destruct (count self >=? size self); [by eexists|].
  pose proof (ok_size _ Hok) as Hn.
  destruct (details_init_ok self (ma_san_pham p)) as [d ->]; [lia|].
  cbn [bind]. by apply insert_loop_returns.
Qed.

(** With a step coprime to the capacity, the walk of [insert] over
    [range (size self)] cannot find a live entry with another key on
    every attempt when some slot is not live. *)
Lemma coprime_walk_finds_free self key :
  table_ok self -> count self < size self ->
  Z.gcd (h2 (size self) key) (size self) = 1 ->
  ~ Forall (fun i => slot_other key (table self)
                       (probe_pos (size self) key i) = true)
           (range (size self)).
Proof.
  intros Hok Hlt Hg Hall. pose proof Hok as [Hn Hlen Hc Hprod].
  destruct (occupied_lt_free (table self)) as (j & slot & Hj & Hl); [lia|].
  pose proof (lookup_lt_Some _ _ _ Hj) as Hjlt.
  destruct (coprime_probe_covers (size self) key (Z.of_nat j) Hn Hg)
    as (i & Hi & Hpos); [lia|].
  rewrite Forall_forall in Hall. specialize (Hall i).
  rewrite Hpos in Hall.
  rewrite (slot_free_not_other key _ _ (slot_free_lookup _ _ _ Hj Hl)) in Hall.
  assert (i ∈ range (size self)) as Hin
    by (apply list_elem_of_In, in_range; lia).
  specialize (Hall Hin). discriminate.
Qed.

(** A prime capacity makes every step coprime to it. *)
Lemma prime_capacity_coprime n key :
  Z.prime n -> Z.gcd (h2 n key) n = 1.
Proof.
  intros Hp. pose proof (Z.prime_ge_2 _ Hp) as Hn.
  pose proof (h2_range n key) as Hr.
  pose proof (get_prime_less_than_lt n Hn) as Hlt.
  rewrite Z.gcd_comm. apply Z.coprime_prime_small; [assumption|lia].
Qed.

(** On a well-formed table that is not full, with a step coprime to the
    capacity, [insert] stops on some attempt of its walk: on a live entry
    with the key, or on a slot it takes. *)
Lemma insert_coprime_outcome self p :
  table_ok self ->
  count self < size self ->
  Z.gcd (h2 (size self) (ma_san_pham p)) (size self) = 1 ->
  let key := ma_san_pham p in
  let pos := probe_pos (size self) key in
  exists self' ok msg pre i rest,
    insert self p = Ok (self', (ok, msg, (pos <$> pre) ++ [pos i])) /\
    range (size self) = pre ++ i :: rest /\
    Forall (fun j => slot_other key (table self) (pos j) = true) pre /\
    ((slot_same key (table self) (pos i) = true /\
      ok = false /\ msg = MsgExists /\ self' = bump self (zeros pre)) \/
     (slot_free (table self) (pos i) = true /\
      ok = true /\ msg = MsgInserted (pos i) /\
      exists d, self' = landed (bump self (zeros pre)) p key i (pos i)
                          ((pos <$> pre) ++ [pos i]) d)).
Proof.
  intros Hok Hlt Hg key pos.
  destruct (insert_returns self p Hok) as [[self' [[ok msg] ps]] Hr].
  pose proof Hr as Hr'.
  apply insert_inv in Hr' as [(Hge & _)|[(_ & Hneg & _)|(_ & Hn & d & Hl)]];
    [lia|pose proof (ok_size _ Hok); lia|].
  apply insert_loop_inv in Hl; [|assumption]. cbn zeta in Hl.
  fold key pos in Hl.
  destruct Hl as (pre & Hpre & [(Hidx & _)|[(i & rest & Hidx & Hs & Heq)
                                 |(i & rest & d' & Hidx & Hf & Heq)]]).
  - exfalso. subst pre.
    exact (coprime_walk_finds_free self _ Hok Hlt Hg Hpre).
  - cbn [app] in Heq. injection Heq as -> -> -> ->.
    exists (bump self (zeros pre)), false, MsgExists, pre, i, rest.
    split; [exact Hr|]. split; [exact Hidx|]. split; [exact Hpre|]. by left.
  - cbn [app] in Heq. injection Heq as -> -> -> ->.
    eexists _, true, (MsgInserted (pos i)), pre, i, rest.
    split; [exact Hr|]. split; [exact Hidx|]. split; [exact Hpre|].
    right. repeat split; [exact Hf|]. by exists d'.
Qed.

Lemma walk_length n (f : Z -> Z) pre i rest :
  range n = pre ++ i :: rest ->
  Z.of_nat (length ((f <$> pre) ++ [f i])) <= n.
Proof.
  intros Hidx. apply (f_equal length) in Hidx. unfold range in Hidx.
  rewrite length_fmap, length_seq, length_app in Hidx. cbn [length] in Hidx.
  rewrite length_app, length_fmap. cbn [length]. lia.
Qed.

(** ** Search after insert *)

Lemma getitem_insert_same {A} (l : list A) p x :
  0 <= p < Z.of_nat (length l) -> getitem (<[Z.to_nat p := x]> l) p = Ok x.
Proof.
  intros H. rewrite getitem_nonneg by lia.
  rewrite list_lookup_insert_eq by lia. reflexivity.
Qed.

Lemma getitem_insert_other {A} (l : list A) p q x :
  0 <= p -> 0 <= q -> p <> q ->
  getitem (<[Z.to_nat p := x]> l) q = getitem l q.
Proof.
  intros Hp Hq Hne. rewrite !getitem_nonneg by lia.
  rewrite list_lookup_insert_ne by lia. reflexivity.
Qed.

Lemma slot_free_bound tbl p :
  0 <= p -> slot_free tbl p = true -> p < Z.of_nat (length tbl).
Proof.
  intros Hp. unfold slot_free.
  destruct (getitem tbl p) as [slot|] eqn:Hg; [|discriminate].
  intros _. eapply getitem_Ok_bound; eassumption.
Qed.

Lemma slot_other_skip key tbl p :
  slot_other key tbl p = true -> slot_skip key tbl p = true.
Proof.
  unfold slot_other, slot_skip.
  destruct (getitem tbl p) as [[e|]|]; try discriminate.
  intros H. apply andb_true_iff in H as [_ H]. rewrite H.
  apply orb_true_r.
Qed.

Lemma search_loop_skip_prefix key pre :
  forall rest self ps d,
    1 <= size self ->
    Forall (fun j => slot_skip key (table self)
                       (probe_pos (size self) key j) = true) pre ->
    exists d',
      search_loop key (pre ++ rest) self ps d =
      search_loop key rest self (ps ++ (probe_pos (size self) key <$> pre)) d'.
Proof.
  induction pre as [|j pre IH]; intros rest self ps d Hn Hall.
  - exists d. cbn. by rewrite app_nil_r.
  - apply Forall_cons in Hall as [Hj Hall]. cbn [app].
    destruct (search_turn_skip key self j (pre ++ rest) ps d Hn Hj)
      as [d1 ->].
    destruct (IH rest self (ps ++ [probe_pos (size self) key j]) d1 Hn Hall)
      as [d2 ->].
    exists d2. cbn [fmap list_fmap]. by rewrite <- app_assoc.
Qed.

(** After an insert has landed, a search for the key walks the same
    slots and stops where the insert put the product. *)
Lemma search_after_landed self p i pre rest d k :
  let key := ma_san_pham p in
  let pos := probe_pos (size self) key in
  1 <= size self ->
  range (size self) = pre ++ i :: rest ->
  Forall (fun j => slot_other key (table self) (pos j) = true) pre ->
  slot_free (table self) (pos i) = true ->
  exists self'',
    search (landed (bump self k) p key i (pos i) ((pos <$> pre) ++ [pos i]) d)
           key
    = Ok (self'', (Some p, pos i, (pos <$> pre) ++ [pos i])).
Proof.
  intros key pos Hn Hidx Hpre Hf.
  set (self' := landed (bump self k) p key i (pos i)
                  ((pos <$> pre) ++ [pos i]) d).
  assert (Hsize : size self' = size self)
    by exact (size_landed (bump self k) _ _ _ _ _ _).
  assert (Htbl : table self' =
                 <[Z.to_nat (pos i) :=
                     Some {| product := Some p; is_deleted := false |}]>
                   (table self))
    by exact (table_landed (bump self k) _ _ _ _ _ _).
  pose proof (probe_pos_range (size self) key i Hn) as Hpi. fold pos in Hpi.
  pose proof (slot_free_bound _ _ (proj1 Hpi) Hf) as Hbound.
  unfold search.
  destruct (details_init_ok self' key) as [d0 ->]; [lia|]. cbn [bind].
  rewrite Hsize, Hidx.
  assert (Hskip : Forall (fun j => slot_skip key (table self')
                            (probe_pos (size self') key j) = true) pre).
  { rewrite Hsize. fold pos. eapply Forall_impl; [exact Hpre|].
    cbn. intros j Hj. apply slot_other_skip.
    pose proof (probe_pos_range (size self) key j Hn) as Hpj. fold pos in Hpj.
    unfold slot_other. rewrite Htbl, getitem_insert_other; [exact Hj|lia|lia|].
    intros Heq. rewrite <- Heq in Hj.
    rewrite (slot_free_not_other key _ _ Hf) in Hj. discriminate. }
  destruct (search_loop_skip_prefix key pre (i :: rest) self' [] d0
              ltac:(lia) Hskip) as [d1 ->].
  rewrite Hsize. fold pos. cbn [app].
  assert (Hsame : slot_same key (table self')
                    (probe_pos (size self') key i) = true).
  { rewrite Hsize. fold pos. unfold slot_same.
    rewrite Htbl, getitem_insert_same by lia. cbn.
    apply str_eqb_refl. }
  destruct (search_turn_same key self' i rest (pos <$> pre) d1
              ltac:(lia) Hsame) as (d2 & e & Hg & ->).
  rewrite Hsize in Hg |- *. fold pos in Hg |- *.
  rewrite Htbl, getitem_insert_same in Hg by lia. injection Hg as <-.
  by eexists.
Qed.

Lemma slot_same_stored key tbl p :
  0 <= p -> slot_same key tbl p = true -> stored_live key tbl.
Proof.
  intros Hp Hs. unfold slot_same in Hs.
  destruct (getitem tbl p) as [[e|]|] eqn:Hg; try discriminate.
  destruct (slot_same_product key tbl p e Hg) as (Hd & pr & Hpr & Hk).
  { unfold slot_same. by rewrite Hg. }
  exists (Z.to_nat p), e, pr. repeat split; try assumption.
  by apply getitem_Ok_lookup.
Qed.

(** ** Reaching a table by a sequence of calls *)

Lemma run_reachable n ops :
  forall self self',
    reachable n self -> run self ops = Ok self' -> reachable n self'.
Proof.
  induction ops as [|o ops IH]; intros self self' Hreach Hrun.
  - cbn in Hrun. by injection Hrun as <-.
  - cbn [run] in Hrun. destruct (step self o) as [self1|] eqn:Hstep;
      [|discriminate].
    cbn [bind] in Hrun. eapply IH; [|exact Hrun].
    by eapply reach_step.
Qed.

(** ** Well-formed tables stay well-formed *)

Lemma occupied_insert tbl (j : nat) slot slot' :
  tbl !! j = Some slot ->
  occupied (<[j := slot']> tbl) =
  occupied tbl - (if live slot then 1 else 0) + (if live slot' then 1 else 0).
Proof.
  revert j. induction tbl as [|s tbl IH]; intros [|j] Hj; try discriminate.
  - cbn in Hj. injection Hj as ->. cbn. lia.
  - cbn in Hj. cbn [occupied]. change (<[S j:=slot']> (s :: tbl))
      with (s :: <[j:=slot']> tbl). cbn [occupied]. rewrite (IH j Hj). lia.
Qed.

Lemma slot_free_live tbl p slot :
  0 <= p -> slot_free tbl p = true -> tbl !! Z.to_nat p = Some slot ->
  live slot = false.
Proof.
  intros Hp Hf Hl. unfold slot_free in Hf.
  rewrite getitem_nonneg, Hl in Hf by assumption.
  destruct slot as [e|]; [|reflexivity]. cbn. by rewrite Hf.
Qed.

Lemma table_ok_landed self p key i pos ps d :
  table_ok self -> 0 <= pos -> slot_free (table self) pos = true ->
  table_ok (landed self p key i pos ps d).
Proof.
  intros [Hn Hlen Hc Hprod] Hp Hf.
  pose proof (slot_free_bound _ _ Hp Hf) as Hb.
  destruct (lookup_lt_is_Some_2 (table self) (Z.to_nat pos)) as [slot Hl];
    [lia|].
  pose proof (slot_free_live _ _ _ Hp Hf Hl) as Hlive.
  constructor.
  - by rewrite size_landed.
  - by rewrite table_landed, length_insert, size_landed.
  - rewrite count_landed, table_landed, (occupied_insert _ _ _ _ Hl), Hlive.
    cbn. lia.
  - rewrite table_landed. intros j e Hj Hd.
    destruct (decide (j = Z.to_nat pos)) as [->|Hne].
    + rewrite list_lookup_insert_eq in Hj by lia. by injection Hj as <-.
    + rewrite list_lookup_insert_ne in Hj by done. by eapply Hprod.
Qed.

Lemma table_ok_frame self self' :
  size self' = size self -> table self' = table self ->
  count self' = count self -> table_ok self -> table_ok self'.
Proof.
  intros Hs Ht Hc [H1 H2 H3 H4]. constructor; rewrite ?Hs, ?Ht, ?Hc; done.
Qed.

Lemma insert_table_ok self p self' r :
  table_ok self -> insert self p = Ok (self', r) ->
  table_ok self' /\ size self' = size self.
Proof.
  intros Hok Hr. destruct r as [[[|] msg] ps].
  - apply insert_success_inv in Hr. cbn zeta in Hr.
    destruct Hr as (Hn & _ & pre & i & rest & d & _ & _ & Hf & _ & _ & ->).
    split; [|exact (size_landed (bump self (zeros pre)) _ _ _ _ _ _)].
    apply table_ok_landed; [by apply table_ok_bump| |exact Hf].
    apply probe_pos_range. assumption.
  - apply insert_failure_inv in Hr as [k ->].
    split; [by apply table_ok_bump|reflexivity].
Qed.

Lemma search_table_ok self key self' r :
  table_ok self -> search self key = Ok (self', r) ->
  table_ok self' /\ size self' = size self.
Proof.
  intros Hok Hr. apply search_frame in Hr as (Hs & Ht & Hc & _).
  split; [by eapply table_ok_frame|assumption].
Qed.

Lemma delete_table_ok self key self' r :
  table_ok self -> delete self key = Ok (self', r) ->
  table_ok self' /\ size self' = size self.
Proof.
  intros Hok Hr. destruct r as [[ok msg] ps].
  apply delete_inv in Hr as (self1 & found & pos0 & Hs & Hcase).
  pose proof Hs as Hout. apply search_outcome in Hout. cbn zeta in Hout.
  destruct (search_table_ok _ _ _ _ Hok Hs) as [Hok1 Hsize1].
  destruct Hcase as [(_ & -> & _)|(pr & e & -> & Hg & _ & _ & ->)];
    [done|].
  split; [|exact Hsize1].
  destruct Hout as [([=] & _)|(Hn & pre & i & rest & d & _ & _ & _ & Hend)].
  destruct Hend as [(_ & [=] & _)|(e' & Hg' & Hsame & _ & -> & Hself1)].
  pose proof (probe_pos_range (size self) key i Hn) as Hp.
  apply search_frame in Hs as (_ & Ht & _ & _). rewrite Ht in Hg.
  rewrite Hg in Hg'. injection Hg' as <-.
  destruct (slot_same_product _ _ _ _ Hg Hsame) as (Hd & pr' & Hpr & _).
  pose proof (getitem_Ok_lookup _ _ _ (proj1 Hp) Hg) as Hl.
  pose proof (lookup_lt_Some _ _ _ Hl) as Hlt.
  destruct Hok1 as [H1 H2 H3 H4]. rewrite Ht in H2, H3, H4.
  constructor; cbn [size table count set_count set_table].
  - exact H1.
  - rewrite Ht, length_insert. exact H2.
  - rewrite Ht, (occupied_insert _ _ _ _ Hl). cbn. rewrite Hd. cbn. lia.
  - rewrite Ht. intros j e0 Hj Hd0.
    destruct (decide (j = Z.to_nat (probe_pos (size self) key i)))
      as [->|Hne].
    + rewrite list_lookup_insert_eq in Hj by lia. injection Hj as <-.
      discriminate.
    + rewrite list_lookup_insert_ne in Hj by done. by eapply H4.
Qed.

Lemma step_table_ok self o self' :
  table_ok self -> step self o = Ok self' ->
  table_ok self' /\ size self' = size self.
Proof.
  intros Hok. destruct o as [p|key|key]; cbn [step].
  - destruct (insert self p) as [[self1 r]|] eqn:Hr; [|discriminate].
    cbn. intros [= <-]. by eapply insert_table_ok.
  - destruct (search self key) as [[self1 r]|] eqn:Hr; [|discriminate].
    cbn. intros [= <-]. by eapply search_table_ok.
  - destruct (delete self key) as [[self1 r]|] eqn:Hr; [|discriminate].
    cbn. intros [= <-]. by eapply delete_table_ok.
Qed.

Lemma occupied_replicate_None (k : nat) : occupied (replicate k None) = 0.
Proof. induction k as [|k IH]; cbn; [reflexivity|]. rewrite IH. lia. Qed.

Lemma table_ok_init n : 1 <= n -> table_ok (DoubleHashTable_init n).
Proof.
  intros Hn. constructor; cbn.
  - exact Hn.
  - rewrite length_replicate. lia.
  - by rewrite occupied_replicate_None.
  - intros j e Hj. apply lookup_replicate in Hj as [[=] _].
Qed.

(** Every table reached from a fresh one with at least one slot is
    well-formed and keeps its capacity. *)
Lemma reachable_table_ok n self :
  1 <= n -> reachable n self -> table_ok self /\ size self = n.
Proof.
  intros Hn. induction 1 as [|self o self' _ [IHok IHsize] Hstep].
  - split; [by apply table_ok_init|reflexivity].
  - destruct (step_table_ok _ _ _ IHok Hstep) as [Hok Hsize].
    split; [exact Hok|congruence].
Qed.

(** ** No call raises on a well-formed table *)

Lemma table_ok_search_cases self key p :
  table_ok self -> 0 <= p < size self ->
  slot_empty (table self) p = true \/
  slot_same key (table self) p = true \/
  slot_skip key (table self) p = true.
Proof.
  intros Hok Hp.
  destruct (table_ok_slot_cases self key p Hok Hp) as [Hf|[Hs|Ho]].
  - unfold slot_free in Hf. unfold slot_empty, slot_skip.
    destruct (getitem (table self) p) as [[e|]|]; try discriminate.
    + right; right. by rewrite Hf.
    + by left.
  - right; by left.
  - right; right. by apply slot_other_skip.
Qed.

Lemma search_loop_returns key idx :
  forall self ps d,
    table_ok self -> exists r, search_loop key idx self ps d = Ok r.
Proof.
  induction idx as [|i idx IH]; intros self ps d Hok.
  - eexists; reflexivity.
  - pose proof (ok_size _ Hok) as Hn.
    pose proof (probe_pos_range (size self) key i Hn) as Hp.
    destruct (table_ok_search_cases self key _ Hok Hp) as [He|[Hs|Hk]].
    + destruct (search_turn_empty key self i idx ps d Hn He) as [d' ->].
      by eexists.
    + destruct (search_turn_same key self i idx ps d Hn Hs)
        as (d' & e & _ & ->). by eexists.
    + destruct (search_turn_skip key self i idx ps d Hn Hk) as [d' ->].
      by apply IH.
Qed.

Lemma search_returns self key :
  table_ok self -> exists r, search self key = Ok r.
Proof.
  intros Hok. unfold search. pose proof (ok_size _ Hok) as Hn.
  destruct (details_init_ok self key) as [d ->]; [lia|].
  cbn [bind]. by apply search_loop_returns.
Qed.

Lemma delete_returns self key :
  table_ok self -> exists r, delete self key = Ok r.
Proof.
  intros Hok.
  destruct (search_returns self key Hok) as [[self1 [[found pos0] ps]] Hs].
  unfold delete. rewrite Hs. cbn [bind].
  destruct found as [pr|]; [|by eexists].
  apply search_outcome in Hs. cbn zeta in Hs.
  destruct Hs as [([=] & _)|(Hn & pre & i & rest & d & _ & _ & _ & Hend)].
  destruct Hend as [(_ & [=] & _)|(e & Hg & _ & _ & -> & ->)].
  pose proof (search_logged_frame self key i ps
                (ResSearchFound i (probe_pos (size self) key i)) d)
    as (_ & -> & _).
  rewrite Hg. cbn [bind]. rewrite setitem_ok; [by eexists|].
  pose proof (probe_pos_range (size self) key i Hn).
  split; [lia|]. eapply getitem_Ok_bound; [lia|exact Hg].
Qed.

Lemma step_returns self o :
  table_ok self -> exists self', step self o = Ok self'.
Proof.
  intros Hok. destruct o as [p|key|key]; cbn [step].
  - destruct (insert_returns self p Hok) as [r ->]. by eexists.
  - destruct (search_returns self key Hok) as [r ->]. by eexists.
  - destruct (delete_returns self key Hok) as [r ->]. by eexists.
Qed.

(** On a fresh table with at least one slot every sequence of calls
    runs to its end. *)
Lemma run_returns ops :
  forall self, table_ok self -> exists self', run self ops = Ok self'.
Proof.
  induction ops as [|o ops IH]; intros self Hok; [by eexists|].
  cbn [run]. destruct (step_returns self o Hok) as [self1 Hstep].
  rewrite Hstep. cbn [bind]. apply IH.
  by destruct (step_table_ok _ _ _ Hok Hstep).
Qed.

(** ** Searching a table that differs in slots the search walks past *)

Lemma search_result_congr self self2 key s1 r :
  size self2 = size self ->
  (forall p, 0 <= p < size self ->
     slot_empty (table self2) p = slot_empty (table self) p /\
     slot_skip key (table self2) p = slot_skip key (table self) p /\
     slot_same key (table self2) p = slot_same key (table self) p /\
     (slot_same key (table self) p = true ->
      getitem (table self2) p = getitem (table self) p)) ->
  search self key = Ok (s1, r) ->
  exists s2, search self2 key = Ok (s2, r).
Proof.
  intros Hsize Hsame Hr. destruct r as [[found pos0] ps].
  apply search_outcome in Hr. cbn zeta in Hr.
  set (pos := probe_pos (size self) key) in *.
  assert (Hskips : 1 <= size self -> forall idx,
            Forall (fun j => slot_skip key (table self) (pos j) = true) idx ->
            Forall (fun j => slot_skip key (table self2) (pos j) = true) idx).
  { intros Hn idx Hidx. eapply Forall_impl; [exact Hidx|].
    cbn. intros j Hj.
    destruct (Hsame (pos j)) as (_ & -> & _); [|exact Hj].
    apply probe_pos_range. assumption. }
  unfold search.
  destruct Hr as [(-> & -> & _ & [(Hneg & ->)|(Hn & Hall & ->)])
                 |(Hn & pre & i & rest & d & Hidx & Hpre & -> & Hend)].
  - destruct (details_init_ok self2 key) as [d0 ->]; [lia|]. cbn [bind].
    rewrite range_nonpos by lia. by eexists.
  - destruct (details_init_ok self2 key) as [d0 ->]; [lia|]. cbn [bind].
    pose proof (search_loop_skip_prefix key (range (size self)) [] self2 []
                  d0) as Hpref.
    rewrite Hsize in Hpref |- *. fold pos in Hpref.
    destruct Hpref as [d1 Heq]; [lia|by apply Hskips|].
    rewrite app_nil_r in Heq. rewrite Heq. by eexists.
  - destruct (details_init_ok self2 key) as [d0 ->]; [lia|]. cbn [bind].
    pose proof (search_loop_skip_prefix key pre (i :: rest) self2 [] d0)
      as Hpref.
    rewrite Hsize in Hpref |- *. fold pos in Hpref.
    destruct Hpref as [d1 Heq]; [lia|by apply Hskips|].
    rewrite Hidx, Heq. cbn [app].
    pose proof (probe_pos_range (size self) key i Hn) as Hp. fold pos in Hp.
    destruct (Hsame (pos i) Hp) as (He & _ & Hs & Hg).
    destruct Hend as [(Hempty & -> & -> & _)|(e & Hget & Hsm & -> & -> & _)].
    + pose proof (search_turn_empty key self2 i rest (pos <$> pre) d1)
        as Hturn.
      rewrite Hsize in Hturn. fold pos in Hturn.
      destruct Hturn as [d2 Heq2]; [lia|by rewrite He|].
      rewrite Heq2. by eexists.
    + pose proof (search_turn_same key self2 i rest (pos <$> pre) d1)
        as Hturn.
      rewrite Hsize in Hturn. fold pos in Hturn.
      destruct Hturn as (d2 & e2 & Hget2 & Heq2); [lia|by rewrite Hs|].
      rewrite Heq2. rewrite (Hg Hsm), Hget in Hget2.
      injection Hget2 as <-. by eexists.
Qed.

(** What a successful [delete] did: the search found a live entry with
    the key at [pos0], and that slot is now a tombstone. *)
Lemma delete_success_inv self key self' msg ps :
  delete self key = Ok (self', (true, msg, ps)) ->
  exists pos0 e,
    1 <= size self /\ 0 <= pos0 < size self /\
    getitem (table self) pos0 = Ok (Some e) /\
    slot_same key (table self) pos0 = true /\
    size self' = size self /\
    table self' =
    <[Z.to_nat pos0 := Some {| product := product e; is_deleted := true |}]>
      (table self).
Proof.
  intros Hr. apply delete_inv in Hr as (self1 & found & pos0 & Hs & Hcase).
  destruct Hcase as [(_ & _ & [=] & _)|(pr & e & -> & Hg & _ & _ & ->)].
  pose proof (search_frame _ _ _ _ Hs) as (Hsize & Htbl & _).
  apply search_outcome in Hs. cbn zeta in Hs.
  destruct Hs as [([=] & _)|(Hn & pre & i & rest & d & _ & _ & _ & Hend)].
  destruct Hend as [(_ & [=] & _)|(e' & Hg' & Hsame & _ & -> & _)].
  rewrite Htbl, Hg' in Hg. injection Hg as ->.
  exists (probe_pos (size self) key i), e.
  split; [exact Hn|]. split; [by apply probe_pos_range|].
  split; [exact Hg'|]. split; [exact Hsame|]. cbn. by rewrite Htbl.
Qed.

(** Tombstones are transparent to the other keys: a search for another
    key returns after the delete what it returned before it. *)
Lemma search_other_key_after_delete self key key' self' msg ps s1 r :
  delete self key = Ok (self', (true, msg, ps)) ->
  key' <> key ->
  search self key' = Ok (s1, r) ->
  exists s2, search self' key' = Ok (s2, r).
Proof.
  intros Hdel Hne Hs.
  apply delete_success_inv in Hdel
    as (pos0 & e & Hn & Hp0 & Hg & Hsame & Hsize & Htbl).
  destruct (slot_same_product _ _ _ _ Hg Hsame) as (Hd & pr & Hpr & Hk).
  pose proof (getitem_Ok_bound _ _ _ (proj1 Hp0) Hg) as Hb.
  apply (search_result_congr self self' key' s1 r Hsize); [|exact Hs].
  intros p Hp. unfold slot_empty, slot_skip, slot_same. rewrite Htbl.
  destruct (Z.eq_dec p pos0) as [->|Hpne].
  - rewrite getitem_insert_same, Hg by lia. cbn. rewrite Hd, Hpr. cbn.
    assert (Heqb : str_eqb (ma_san_pham pr) key' = false)
      by (apply str_eqb_neq; congruence).
    rewrite Heqb. cbn. repeat split. discriminate.
  - rewrite getitem_insert_other by lia. done.
Qed.

(** When the live keys are unique, the key is gone after its delete. *)
Lemma search_deleted_key_unique self key self' msg ps :
  table_ok self ->
  unique_live_keys (table self) ->
  delete self key = Ok (self', (true, msg, ps)) ->
  exists self'' ps', search self' key = Ok (self'', (None, -1, ps')).
Proof.
  intros Hok Huniq Hdel.
  destruct (delete_table_ok _ _ _ _ Hok Hdel) as [Hok' _].
  apply delete_success_inv in Hdel
    as (pos0 & e & Hn & Hp0 & Hg & Hsame & Hsize & Htbl).
  destruct (slot_same_product _ _ _ _ Hg Hsame) as (Hd & pr & Hpr & Hk).
  pose proof (getitem_Ok_bound _ _ _ (proj1 Hp0) Hg) as Hb.
  destruct (search_returns self' key Hok') as [[self'' [[found p1] ps']] Hs].
  exists self'', ps'. rewrite Hs.
  apply search_outcome in Hs. cbn zeta in Hs. rewrite Hsize in Hs.
  destruct Hs as [(-> & -> & _)|(_ & pre & i & rest & d & _ & _ & _ & Hend)];
    [reflexivity|].
  destruct Hend as [(_ & -> & -> & _)|(e' & Hg' & Hsame' & _)];
    [reflexivity|exfalso].
  set (p := probe_pos (size self) key i) in *.
  pose proof (probe_pos_range (size self) key i Hn) as Hp. fold p in Hp.
  destruct (slot_same_product _ _ _ _ Hg' Hsame') as (Hd' & pr' & Hpr' & Hk').
  rewrite Htbl in Hg'. destruct (Z.eq_dec p pos0) as [Heq|Hpne].
  - rewrite Heq, getitem_insert_same in Hg' by lia.
    injection Hg' as <-. discriminate.
  - rewrite getitem_insert_other in Hg' by lia.
    apply getitem_Ok_lookup in Hg, Hg'; try lia.
    assert (Z.to_nat p = Z.to_nat pos0); [|lia].
    eapply (Huniq _ _ e' e pr' pr); try eassumption. congruence.
Qed.

(** The live keys stay unique under an insert of a key that is not
    stored live, under a search and under a delete: the one way to a
    second live copy is an insert of a key that is stored live beyond a
    tombstone of its walk. *)
Lemma insert_fresh_keeps_unique self p self' r :
  unique_live_keys (table self) ->
  ~ stored_live (ma_san_pham p) (table self) ->
  insert self p = Ok (self', r) ->
  unique_live_keys (table self').
Proof.
  intros Huniq Hfresh Hr. destruct r as [[[|] msg] ps].
  - apply insert_success_inv in Hr. cbn zeta in Hr.
    destruct Hr as (Hn & _ & pre & i & rest & d & _ & _ & Hf & _ & _ & ->).
    rewrite table_landed. change (table (bump self (zeros pre)))
      with (table self).
    set (k := Z.to_nat (probe_pos (size self) (ma_san_pham p) i)).
    assert (Hnew : forall j e pr,
              <[k := Some {| product := Some p; is_deleted := false |}]>
                (table self) !! j = Some (Some e) ->
              is_deleted e = false -> product e = Some pr ->
              ma_san_pham pr = ma_san_pham p -> j = k).
    { intros j e pr Hj Hd Hpr Hk.
      destruct (decide (j = k)) as [|Hne]; [assumption|exfalso].
      rewrite list_lookup_insert_ne in Hj by done.
      apply Hfresh. by exists j, e, pr. }
    intros j1 j2 e1 e2 p1 p2 H1 H2 Hd1 Hd2 Hp1 Hp2 Hk.
    destruct (decide (j1 = k)) as [->|Hne1].
    + destruct (decide (j2 = k)) as [->|Hne2]; [reflexivity|].
      symmetry. apply (Hnew j2 e2 p2); try assumption.
      assert (Hlt : (k < length (table self))%nat).
      { apply lookup_lt_Some in H1. by rewrite length_insert in H1. }
      rewrite list_lookup_insert_eq in H1 by exact Hlt.
      injection H1 as <-. cbn in Hp1. injection Hp1 as <-. congruence.
    + destruct (decide (j2 = k)) as [->|Hne2].
      * apply (Hnew j1 e1 p1); try assumption.
        assert (Hlt : (k < length (table self))%nat).
        { apply lookup_lt_Some in H2. by rewrite length_insert in H2. }
        rewrite list_lookup_insert_eq in H2 by exact Hlt.
        injection H2 as <-. cbn in Hp2. injection Hp2 as <-. congruence.
      * rewrite list_lookup_insert_ne in H1, H2 by done.
        by eapply Huniq.
  - apply insert_failure_inv in Hr as [k ->]. exact Huniq.
Qed.

Lemma search_keeps_unique self key self' r :
  unique_live_keys (table self) ->
  search self key = Ok (self', r) ->
  unique_live_keys (table self').
Proof.
  intros Huniq Hr. apply search_frame in Hr as (_ & -> & _). exact Huniq.
Qed.

Lemma delete_keeps_unique self key self' r :
  unique_live_keys (table self) ->
  delete self key = Ok (self', r) ->
  unique_live_keys (table self').
Proof.
  intros Huniq Hr. destruct r as [[[|] msg] ps].
  - apply delete_success_inv in Hr
      as (pos0 & e & Hn & Hp0 & Hg & _ & _ & ->).
    intros j1 j2 e1 e2 p1 p2 H1 H2 Hd1 Hd2 Hp1 Hp2 Hk.
    pose proof (getitem_Ok_bound _ _ _ (proj1 Hp0) Hg) as Hb.
    destruct (decide (j1 = Z.to_nat pos0)) as [->|Hne1].
    { rewrite list_lookup_insert_eq in H1 by lia. injection H1 as <-.
      discriminate. }
    destruct (decide (j2 = Z.to_nat pos0)) as [->|Hne2].
    { rewrite list_lookup_insert_eq in H2 by lia. injection H2 as <-.
      discriminate. }
    rewrite list_lookup_insert_ne in H1, H2 by done. by eapply Huniq.
  - apply delete_inv in Hr as (self1 & found & pos0 & Hs & Hcase).
    destruct Hcase as [(_ & -> & _)|(pr & e & _ & _ & [=] & _)].
    by eapply search_keeps_unique.
Qed.

(** ** The log entries of the tables the code builds *)

Lemma reachable_constructed n self :
  reachable n self -> Forall constructed (collision_logs self).
Proof.
  intros Hreach. eapply Forall_impl; [apply (reachable_logs _ _ Hreach)|].
  cbn. intros log [_ H]. exact H.
Qed.

Lemma from_dict_constructed data :
  Forall constructed (collision_logs (from_dict data)).
Proof.
  unfold from_dict. destruct (td_collision_logs data) as [logs|]; cbn.
  - apply Forall_fmap, Forall_forall. intros log _.
    apply constructed_init.
  - constructor.
Qed.

(** An insert that fails as a duplicate leaves the slots, the live count
    and the log as they were; the collision counter is one higher when
    the duplicate was met after attempt 0, whose slot then held another
    key. *)
Lemma insert_duplicate_frame self p self' ps :
  insert self p = Ok (self', (false, MsgExists, ps)) ->
  table self' = table self /\ count self' = count self /\
  collision_logs self' = collision_logs self /\
  collision_count self' =
  collision_count self + (if 1 <? Z.of_nat (length ps) then 1 else 0).
Proof.
  intros Hr.
  apply insert_inv in Hr as [(_ & [=])|[(_ & _ & [=])|(_ & Hn & d & Hr)]].
  apply insert_loop_inv in Hr; [|assumption]. cbn zeta in Hr.
  destruct Hr as (pre & _ & [(_ & [=])|[(i & rest & Hidx & _ & Heq)
                                       |(i & rest & d' & _ & _ & [=])]]).
  cbn [app] in Heq. injection Heq as -> ->.
  repeat split. cbn. f_equal.
  rewrite (zeros_range_prefix _ _ _ Hidx), length_app, length_fmap.
  cbn [length]. destruct pre; cbn [length].
  - reflexivity.
  - destruct (Z.ltb_spec 1 (Z.of_nat (S (length pre) + 1))); [reflexivity|lia].
Qed.

(** ** What [search] finds *)

Lemma slot_same_not_skip key tbl p :
  slot_same key tbl p = true -> slot_skip key tbl p = false.
Proof.
  unfold slot_same, slot_skip.
  destruct (getitem tbl p) as [[e|]|]; try discriminate.
  destruct (is_deleted e); [discriminate|]. cbn.
  destruct (product e); [|discriminate]. by intros ->.
Qed.

Lemma slot_same_not_empty key tbl p :
  slot_same key tbl p = true -> slot_empty tbl p = false.
Proof.
  unfold slot_same, slot_empty.
  by destruct (getitem tbl p) as [[e|]|].
Qed.

Lemma stored_slot_same tbl (j : nat) e pr :
  tbl !! j = Some (Some e) -> is_deleted e = false -> product e = Some pr ->
  slot_same (ma_san_pham pr) tbl (Z.of_nat j) = true.
Proof.
  intros Hj Hd Hp. unfold slot_same. rewrite getitem_nonneg by lia.
  rewrite Nat2Z.id, Hj, Hd, Hp. cbn. apply str_eqb_refl.
Qed.

Lemma in_range_prefix n pre i rest i' :
  range n = pre ++ i :: rest -> 0 <= i' < i -> i' ∈ pre.
Proof.
  intros Hidx Hi'. pose proof (range_split_index _ _ _ _ Hidx) as Hi.
  apply range_prefix in Hidx. rewrite Hidx.
  apply list_elem_of_In, in_map_iff. exists (Z.to_nat i'). split; [lia|].
  apply in_seq. lia.
Qed.

(** A search that returns a product found it live, under the key, in
    the slot it reports, which is the last one of the probe sequence; a
    search that returns none reports position -1. *)
Lemma search_sound self key self' found pos0 ps :
  search self key = Ok (self', (found, pos0, ps)) ->
  match found with
  | Some pr =>
      exists e,
        0 <= pos0 < size self /\
        table self !! Z.to_nat pos0 = Some (Some e) /\
        is_deleted e = false /\ product e = Some pr /\
        ma_san_pham pr = key /\ last ps = Some pos0
  | None => pos0 = -1
  end.
Proof.
  intros Hr. apply search_outcome in Hr. cbn zeta in Hr.
  destruct Hr as [(-> & -> & _)|(Hn & pre & i & rest & d & _ & _ & -> & Hend)];
    [reflexivity|].
  destruct Hend as [(_ & -> & -> & _)|(e & Hg & Hs & -> & -> & _)];
    [reflexivity|].
  destruct (slot_same_product _ _ _ _ Hg Hs) as (Hd & pr & Hpr & Hk).
  rewrite Hpr. exists e.
  pose proof (probe_pos_range (size self) key i Hn) as Hp.
  split; [exact Hp|]. split; [by apply getitem_Ok_lookup; [lia|]|].
  split; [exact Hd|]. split; [exact Hpr|]. split; [exact Hk|].
  apply last_snoc.
Qed.

(** On a well-formed table whose live entries are findable, a search
    for a key that is stored live returns a product with that key. *)
Lemma search_complete self key :
  table_ok self -> findable self -> stored_live key (table self) ->
  exists self' pr pos0 ps,
    search self key = Ok (self', (Some pr, pos0, ps)) /\
    ma_san_pham pr = key.
Proof.
  intros Hok Hfind (j & e & pr & Hj & Hd & Hpr & Hk).
  destruct (Hfind j e pr Hj Hd Hpr) as (i & Hi & Hpos & Hclear).
  rewrite Hk in Hpos, Hclear.
  pose proof (stored_slot_same _ _ _ _ Hj Hd Hpr) as Hsame.
  rewrite Hk, <- Hpos in Hsame.
  destruct (search_returns self key Hok)
    as [[self' [[found pos0] ps]] Hr].
  pose proof Hr as Hout. apply search_outcome in Hout. cbn zeta in Hout.
  pose proof (ok_size _ Hok) as Hn.
  destruct Hout as [(_ & _ & _ & [(Hneg & _)|(_ & Hall & _)])
                   |(_ & pre & i1 & rest & d & Hidx & Hpre & _ & Hend)].
  - lia.
  - exfalso. rewrite Forall_forall in Hall.
    assert (Hin : i ∈ range (size self))
      by (apply list_elem_of_In, in_range; lia).
    specialize (Hall i Hin).
    rewrite (slot_same_not_skip _ _ _ Hsame) in Hall. discriminate.
  - assert (Hlt : i1 <= i).
    { destruct (Z_le_gt_dec i1 i) as [|Hgt]; [assumption|exfalso].
      pose proof (in_range_prefix _ _ _ _ i Hidx) as range_split_bound'.
      rewrite Forall_forall in Hpre.
      assert (Hin : i ∈ pre).
      { apply range_split_bound'. lia. }
      specialize (Hpre i Hin).
      rewrite (slot_same_not_skip _ _ _ Hsame) in Hpre. discriminate. }
    destruct Hend as [(Hempty & _)|(e1 & Hg & Hs & -> & _)].
    + exfalso. destruct (Z.eq_dec i1 i) as [->|Hne].
      * rewrite (slot_same_not_empty _ _ _ Hsame) in Hempty. discriminate.
      * pose proof (range_split_index _ _ _ _ Hidx) as Hi1.
        rewrite Hclear in Hempty by lia. discriminate.
    + destruct (slot_same_product _ _ _ _ Hg Hs) as (_ & pr1 & Hpr1 & Hk1).
      rewrite Hpr1 in Hr. by exists self', pr1, pos0, ps.
Qed.

(** ** Slots are never emptied *)

Lemma slot_empty_insert_Some tbl (k : nat) x q :
  0 <= q ->
  slot_empty tbl q = false ->
  slot_empty (<[k := Some x]> tbl) q = false.
Proof.
  intros Hq. unfold slot_empty. rewrite !getitem_nonneg by assumption.
  destruct (decide (k = Z.to_nat q)) as [->|Hne].
  - destruct (decide (Z.to_nat q < length tbl)%nat) as [Hlt|Hge].
    + by rewrite list_lookup_insert_eq.
    + by rewrite list_insert_ge by lia.
  - by rewrite list_lookup_insert_ne.
Qed.

(** What a call does to the slot array: nothing, or it writes an entry
    into one slot. *)
Lemma step_table self o self' :
  step self o = Ok self' ->
  table self' = table self \/
  exists (k : nat) x, (k < length (table self))%nat /\
                      table self' = <[k := Some x]> (table self).
Proof.
  destruct o as [p|key|key]; cbn [step].
  - destruct (insert self p) as [[self1 [[[|] msg] ps]]|] eqn:Hr;
      [| |discriminate]; cbn; intros [= <-].
    + apply insert_success_inv in Hr. cbn zeta in Hr.
      destruct Hr as (Hn & _ & pre & i & rest & d & _ & _ & Hf & _ & _ & ->).
      right. rewrite table_landed. eexists _, _. split; [|reflexivity].
      pose proof (probe_pos_range (size self) (ma_san_pham p) i Hn) as Hp.
      pose proof (slot_free_bound _ _ (proj1 Hp) Hf). cbn. lia.
    + apply insert_failure_inv in Hr as [k ->]. by left.
  - destruct (search self key) as [[self1 r]|] eqn:Hr; [|discriminate].
    cbn. intros [= <-]. apply search_frame in Hr as (_ & -> & _). by left.
  - destruct (delete self key) as [[self1 [[[|] msg] ps]]|] eqn:Hr;
      [| |discriminate]; cbn; intros [= <-].
    + apply delete_success_inv in Hr
        as (pos0 & e & Hn & Hp0 & Hg & _ & _ & ->).
      right. eexists _, _. split; [|reflexivity].
      pose proof (getitem_Ok_bound _ _ _ (proj1 Hp0) Hg). lia.
    + apply delete_inv in Hr as (s1 & found & pos0 & Hs & Hcase).
      destruct Hcase as [(_ & -> & _)|(pr & e & _ & _ & [=] & _)].
      apply search_frame in Hs as (_ & -> & _). by left.
Qed.

Lemma step_keeps_used self o self' (j : nat) e :
  step self o = Ok self' ->
  table self !! j = Some (Some e) ->
  exists e', table self' !! j = Some (Some e').
Proof.
  intros Hstep Hj.
  destruct (step_table _ _ _ Hstep) as [->|(k & x & Hk & ->)]; [by exists e|].
  destruct (decide (k = j)) as [->|Hne].
  - exists x. by rewrite list_lookup_insert_eq.
  - exists e. by rewrite list_lookup_insert_ne.
Qed.

Lemma step_length self o self' :
  step self o = Ok self' -> length (table self') = length (table self).
Proof.
  intros Hstep.
  destruct (step_table _ _ _ Hstep) as [->|(k & x & Hk & ->)]; [done|].
  apply length_insert.
Qed.

(** ** Live entries stay findable *)

Lemma range_split_in n pre i rest :
  range n = pre ++ i :: rest -> 0 <= i < n.
Proof.
  intros H. apply in_range. rewrite H. apply in_or_app. right. now left.
Qed.

Lemma findable_init n : findable (DoubleHashTable_init n).
Proof. intros j e pr Hj. cbn in Hj. apply lookup_replicate in Hj as [[=] _]. Qed.

Lemma findable_frame self self' :
  size self' = size self -> table self' = table self ->
  findable self -> findable self'.
Proof. intros Hs Ht Hf. unfold findable. rewrite Hs, Ht. exact Hf. Qed.

Lemma insert_findable self p self' r :
  findable self -> insert self p = Ok (self', r) -> findable self'.
Proof.
  intros Hfind Hr. destruct r as [[[|] msg] ps].
  - apply insert_success_inv in Hr. cbn zeta in Hr.
    destruct Hr as (Hn & _ & pre & i & rest & d & Hidx & Hpre & Hf & _ & _ & ->).
    set (key := ma_san_pham p) in *.
    set (pos := probe_pos (size self) key) in *.
    pose proof (probe_pos_range (size self) key i Hn) as Hp. fold pos in Hp.
    pose proof (slot_free_bound _ _ (proj1 Hp) Hf) as Hb.
    intros j e pr Hj Hd Hpr.
    rewrite size_landed. rewrite table_landed in Hj |- *.
    change (size (bump self (zeros pre))) with (size self).
    change (table (bump self (zeros pre))) with (table self) in *.
    destruct (decide (j = Z.to_nat (pos i))) as [->|Hne].
    + rewrite list_lookup_insert_eq in Hj by lia. injection Hj as <-.
      cbn in Hpr. injection Hpr as <-. fold key pos.
      exists i. split; [eapply range_split_in; exact Hidx|].
      split; [lia|]. intros i' Hi'.
      apply slot_empty_insert_Some; [apply probe_pos_range; lia|].
      eapply slot_skip_not_empty, slot_other_skip.
      rewrite Forall_forall in Hpre. apply Hpre.
      eapply in_range_prefix; eassumption.
    + rewrite list_lookup_insert_ne in Hj by done.
      destruct (Hfind j e pr Hj Hd Hpr) as (i0 & Hi0 & Hpos & Hclear).
      exists i0. split; [exact Hi0|]. split; [exact Hpos|].
      intros i' Hi'. apply slot_empty_insert_Some;
        [apply probe_pos_range; lia|by apply Hclear].
  - apply insert_failure_inv in Hr as [k ->].
    by apply (findable_frame self).
Qed.

Lemma delete_findable self key self' r :
  findable self -> delete self key = Ok (self', r) -> findable self'.
Proof.
  intros Hfind Hr. destruct r as [[[|] msg] ps].
  - apply delete_success_inv in Hr
      as (pos0 & e0 & Hn & Hp0 & Hg & _ & Hsize & Htbl).
    pose proof (getitem_Ok_bound _ _ _ (proj1 Hp0) Hg) as Hb.
    intros j e pr Hj Hd Hpr. rewrite Hsize. rewrite Htbl in Hj |- *.
    destruct (decide (j = Z.to_nat pos0)) as [->|Hne].
    + rewrite list_lookup_insert_eq in Hj by lia. injection Hj as <-.
      discriminate.
    + rewrite list_lookup_insert_ne in Hj by done.
      destruct (Hfind j e pr Hj Hd Hpr) as (i0 & Hi0 & Hpos & Hclear).
      exists i0. split; [exact Hi0|]. split; [exact Hpos|].
      intros i' Hi'. apply slot_empty_insert_Some;
        [apply probe_pos_range; lia|by apply Hclear].
  - apply delete_inv in Hr as (s1 & found & pos0 & Hs & Hcase).
    destruct Hcase as [(_ & -> & _)|(pr & e & _ & _ & [=] & _)].
    apply search_frame in Hs as (Hsize & Htbl & _).
    by apply (findable_frame self).
Qed.

Lemma step_findable self o self' :
  findable self -> step self o = Ok self' -> findable self'.
Proof.
  intros Hfind. destruct o as [p|key|key]; cbn [step].
  - destruct (insert self p) as [[self1 r]|] eqn:Hr; [|discriminate].
    cbn. intros [= <-]. by eapply insert_findable.
  - destruct (search self key) as [[self1 r]|] eqn:Hr; [|discriminate].
    cbn. intros [= <-]. apply search_frame in Hr as (Hsize & Htbl & _).
    by apply (findable_frame self).
  - destruct (delete self key) as [[self1 r]|] eqn:Hr; [|discriminate].
    cbn. intros [= <-]. by eapply delete_findable.
Qed.

Lemma reachable_findable n self : reachable n self -> findable self.
Proof.
  induction 1 as [|self o self' _ IH Hstep]; [apply findable_init|].
  by eapply step_findable.
Qed.

(** ** All entries keep their product *)

Lemma step_entries_have_products self o self' :
  entries_have_products (table self) -> step self o = Ok self' ->
  entries_have_products (table self').
Proof.
  intros Hall Hstep. destruct o as [p|key|key]; cbn [step] in Hstep.
  - destruct (insert self p) as [[self1 [[[|] msg] ps]]|] eqn:Hr;
      [| |discriminate]; cbn in Hstep; injection Hstep as <-.
    + apply insert_success_inv in Hr. cbn zeta in Hr.
      destruct Hr as (Hn & _ & pre & i & rest & d & _ & _ & Hf & _ & _ & ->).
      rewrite table_landed. intros j e Hj.
      destruct (decide (j = Z.to_nat
                  (probe_pos (size self) (ma_san_pham p) i))) as [->|Hne].
      * apply list_lookup_insert_Some in Hj as [(_ & [= <-] & _)|[? _]];
          [discriminate|done].
      * rewrite list_lookup_insert_ne in Hj by done. by eapply Hall.
    + apply insert_failure_inv in Hr as [k ->]. exact Hall.
  - destruct (search self key) as [[self1 r]|] eqn:Hr; [|discriminate].
    cbn in Hstep. injection Hstep as <-.
    apply search_frame in Hr as (_ & -> & _). exact Hall.
  - destruct (delete self key) as [[self1 [[[|] msg] ps]]|] eqn:Hr;
      [| |discriminate]; cbn in Hstep; injection Hstep as <-.
    + apply delete_success_inv in Hr
        as (pos0 & e0 & Hn & Hp0 & Hg & _ & _ & ->).
      pose proof (getitem_Ok_lookup _ _ _ (proj1 Hp0) Hg) as Hl.
      intros j e Hj. destruct (decide (j = Z.to_nat pos0)) as [->|Hne].
      * apply list_lookup_insert_Some in Hj as [(_ & [= <-] & _)|[? _]];
          [|done].
        cbn. by eapply Hall.
      * rewrite list_lookup_insert_ne in Hj by done. by eapply Hall.
    + apply delete_inv in Hr as (s1 & found & pos0 & Hs & Hcase).
      destruct Hcase as [(_ & -> & _)|(pr & e & _ & _ & [=] & _)].
      apply search_frame in Hs as (_ & -> & _). exact Hall.
Qed.

Lemma reachable_entries_have_products n self :
  reachable n self -> entries_have_products (table self).
Proof.
  induction 1 as [|self o self' _ IH Hstep].
  - intros j e Hj. cbn in Hj. apply lookup_replicate in Hj as [[=] _].
  - by eapply step_entries_have_products.
Qed.

(** ** Enumeration *)

Lemma enumerate_cons {A} (k : nat) (x : A) l :
  imap (fun i y => (Z.of_nat (k + i), y)) (x :: l) =
  (Z.of_nat k, x) :: imap (fun i y => (Z.of_nat (S k + i), y)) l.
Proof.
  rewrite imap_cons. rewrite Nat.add_0_r. f_equal.
  apply imap_ext. intros i y _. cbn. f_equal. lia.
Qed.

(** The products listed from a slot array whose first slot has index
    [k]. *)
Lemma all_products_from (k : nat) tbl z op :
  In (z, op)
     (flat_map
        (fun '(i, entry) =>
           match entry : option HashEntry with
           | Some e => if negb (is_deleted e) then [(i, product e)] else []
           | None => []
           end)
        (imap (fun i y => (Z.of_nat (k + i), y)) tbl)) <->
  exists (j : nat) e,
    z = Z.of_nat (k + j) /\ tbl !! j = Some (Some e) /\
    is_deleted e = false /\ op = product e.
Proof.
  revert k. induction tbl as [|slot tbl IH]; intros k.
  - cbn. split; [done|]. by intros (j & e & _ & Hj & _).
  - rewrite enumerate_cons. cbn [flat_map]. rewrite in_app_iff, IH. split.
    + intros [Hhead|(j & e & -> & Hj & Hd & ->)].
      * destruct slot as [e|]; [|done].
        destruct (is_deleted e) eqn:Hd; [done|]. cbn in Hhead.
        destruct Hhead as [[= <- <-]|[]]. exists 0%nat, e.
        rewrite Nat.add_0_r. done.
      * exists (S j), e. repeat split; try done. f_equal. lia.
    + intros ([|j] & e & -> & Hj & Hd & ->).
      * left. cbn in Hj. injection Hj as ->. rewrite Hd. cbn. left.
        by rewrite Nat.add_0_r.
      * right. exists j, e. repeat split; try done. f_equal. lia.
Qed.

Lemma all_products_length (k : nat) tbl :
  Z.of_nat
    (length
       (flat_map
          (fun '(i, entry) =>
             match entry : option HashEntry with
             | Some e => if negb (is_deleted e) then [(i, product e)] else []
             | None => []
             end)
          (imap (fun i y => (Z.of_nat (k + i), y)) tbl))) = occupied tbl.
Proof.
  revert k. induction tbl as [|slot tbl IH]; intros k; [reflexivity|].
  rewrite enumerate_cons. cbn [flat_map occupied].
  rewrite length_app, Nat2Z.inj_add, IH. f_equal.
  destruct slot as [e|]; [|reflexivity]. cbn. by destruct (is_deleted e).
Qed.

Lemma all_products_sorted (k : nat) tbl :
  let l := fst <$>
           flat_map
             (fun '(i, entry) =>
                match entry : option HashEntry with
                | Some e => if negb (is_deleted e) then [(i, product e)]
                            else []
                | None => []
                end)
             (imap (fun i y => (Z.of_nat (k + i), y)) tbl) in
  StronglySorted Z.lt l /\ Forall (fun z => Z.of_nat k <= z) l.
Proof.
  revert k. induction tbl as [|slot tbl IH]; intros k; cbn zeta.
  - cbn. split; constructor.
  - rewrite enumerate_cons. cbn [flat_map]. rewrite fmap_app.
    destruct (IH (S k)) as [Hs Hge]. cbn zeta in Hs, Hge.
    assert (Hge' : Forall (fun z => Z.of_nat k <= z)
                     (fst <$>
                      flat_map
                        (fun '(i, entry) =>
                           match entry : option HashEntry with
                           | Some e => if negb (is_deleted e)
                                       then [(i, product e)] else []
                           | None => []
                           end)
                        (imap (fun i y => (Z.of_nat (S k + i), y)) tbl))).
    { eapply Forall_impl; [exact Hge|]. cbn. lia. }
    destruct slot as [e|]; [|by split].
    destruct (is_deleted e); [by split|]. cbn. split.
    + constructor; [exact Hs|]. eapply Forall_impl; [exact Hge|]. cbn. lia.
    + constructor; [lia|exact Hge'].
Qed.

Lemma enumerate_as_from {A} (l : list A) :
  enumerate l = imap (fun i y => (Z.of_nat (0 + i), y)) l.
Proof. reflexivity. Qed.

(** ** Statistics and slot states *)

Lemma slot_counts tbl :
  occupied tbl + deleted tbl + empties tbl = Z.of_nat (length tbl) /\
  0 <= occupied tbl /\ 0 <= deleted tbl /\ 0 <= empties tbl.
Proof.
  induction tbl as [|slot tbl IH]; cbn [occupied deleted empties length];
    [lia|].
  destruct slot as [e|]; cbn; [destruct (is_deleted e); cbn|]; lia.
Qed.

Lemma table_state_loop_ok tbl :
  forall (k : nat) state,
    (forall (j : nat) e, tbl !! j = Some (Some e) ->
                         is_deleted e = true -> product e <> None) ->
    exists st,
      table_state_loop (imap (fun i y => (Z.of_nat (k + i), y)) tbl) state
      = Ok (state ++ st) /\
      length st = length tbl /\
      forall (j : nat) slot s,
        tbl !! j = Some slot -> st !! j = Some s ->
        st_index s = Z.of_nat (k + j) /\ slot_view slot s.
Proof.
  induction tbl as [|slot tbl IH]; intros k state Hprod.
  - exists []. cbn. rewrite app_nil_r. split; [reflexivity|].
    split; [reflexivity|]. intros j0 slot s Hj. done.
  - rewrite enumerate_cons. cbn [table_state_loop].
    assert (Htail : forall (j : nat) e, tbl !! j = Some (Some e) ->
                      is_deleted e = true -> product e <> None)
      by (intros j e Hj; exact (Hprod (S j) e Hj)).
    assert (Hcont : forall s0, slot_view slot s0 ->
              st_index s0 = Z.of_nat k ->
              exists st,
                table_state_loop
                  (imap (fun i y => (Z.of_nat (S k + i), y)) tbl)
                  (state ++ [s0]) = Ok (state ++ st) /\
                length st = length (slot :: tbl) /\
                forall (j : nat) slot' s,
                  (slot :: tbl) !! j = Some slot' -> st !! j = Some s ->
                  st_index s = Z.of_nat (k + j) /\ slot_view slot' s).
    { intros s0 Hview Hidx.
      destruct (IH (S k) (state ++ [s0]) Htail) as (st & Heq & Hlen & Hpt).
      exists (s0 :: st). rewrite Heq, <- app_assoc. cbn [app length].
      split; [reflexivity|]. split; [by rewrite Hlen|].
      intros [|j] slot' s Hj Hs; cbn in Hj, Hs.
      - injection Hj as <-. injection Hs as <-. rewrite Nat.add_0_r. done.
      - destruct (Hpt j slot' s Hj Hs) as [Hi Hv]. split; [|exact Hv].
        rewrite Hi. f_equal. lia. }
    destruct slot as [e|].
    + destruct (is_deleted e) eqn:Hd.
      * destruct (product e) as [pr|] eqn:Hpr;
          [|by destruct (Hprod 0%nat e eq_refl Hd)].
        unfold product_key. rewrite Hpr. cbn [bind]. apply Hcont; [|done].
        cbn. rewrite Hd. split; [done|]. by exists pr.
      * apply Hcont; [|done]. cbn. by rewrite Hd.
    + apply Hcont; done.
Qed.

Lemma table_state_loop_raise tbl :
  forall (k : nat) state (j : nat) e,
    tbl !! j = Some (Some e) -> is_deleted e = true -> product e = None ->
    table_state_loop (imap (fun i y => (Z.of_nat (k + i), y)) tbl) state
    = Raise AttributeError.
Proof.
  induction tbl as [|slot tbl IH]; intros k state j e Hj Hd Hpr; [done|].
  rewrite enumerate_cons. cbn [table_state_loop].
  destruct j as [|j].
  - cbn in Hj. injection Hj as ->. rewrite Hd. unfold product_key.
    by rewrite Hpr.
  - cbn in Hj. destruct slot as [e0|]; [|by eapply IH].
    destruct (is_deleted e0); [|by eapply IH].
    unfold product_key. destruct (product e0); [|done]. cbn [bind].
    by eapply IH.
Qed.

(** ** Counters and log along a call *)

Lemma zeros_nonneg idx : 0 <= zeros idx.
Proof.
  induction idx as [|i idx IH]; cbn; [lia|]. destruct (i =? 0); lia.
Qed.

Lemma insert_entries_app logs log :
  insert_entries (logs ++ [log]) =
  insert_entries logs +
  (if str_eqb (log_operation log) "INSERT" then 1 else 0).
Proof.
  induction logs as [|l logs IH]; cbn [insert_entries app]; [lia|].
  rewrite IH. lia.
Qed.

(** What one call adds to the collision counter and to the log. *)
Lemma step_counters self o self' :
  step self o = Ok self' ->
  (collision_logs self' = collision_logs self /\
   collision_count self <= collision_count self') \/
  (exists log,
     collision_logs self' = collision_logs self ++ [log] /\
     1 <= log_collision_count log /\
     ((log_operation log = "INSERT"%string /\
       collision_count self' = collision_count self + 2) \/
      (log_operation log = "SEARCH"%string /\
       collision_count self' = collision_count self))).
Proof.
  assert (Hsearch : forall key s1 found pos0 ps,
            search self key = Ok (s1, (found, pos0, ps)) ->
            (collision_logs s1 = collision_logs self /\
             collision_count self <= collision_count s1) \/
            (exists log,
               collision_logs s1 = collision_logs self ++ [log] /\
               1 <= log_collision_count log /\
               ((log_operation log = "INSERT"%string /\
                 collision_count s1 = collision_count self + 2) \/
                (log_operation log = "SEARCH"%string /\
                 collision_count s1 = collision_count self)))).
  { intros key s1 found pos0 ps Hr.
    pose proof (search_frame _ _ _ _ Hr) as (_ & _ & _ & Hcc).
    apply search_logs in Hr.
    destruct (search_stopped (table self) found ps) ; cbn [andb] in Hr;
      [|left; split; [exact Hr|lia]].
    destruct (Z.ltb_spec 1 (Z.of_nat (length ps))) as [Hlen|Hlen];
      [|left; split; [exact Hr|lia]].
    destruct Hr as (res & d & ->). right. eexists. split; [reflexivity|].
    cbn. split; [lia|]. right. done. }
  destruct o as [p|key|key]; cbn [step].
  - destruct (insert self p) as [[self1 [[ok msg] ps]]|] eqn:Hr;
      [|discriminate].
    cbn. intros [= <-]. destruct ok.
    + apply insert_success_inv in Hr. cbn zeta in Hr.
      destruct Hr as (Hn & _ & pre & i & rest & d & Hidx & _ & _ & Hps & _ & ->).
      rewrite logs_landed, collision_count_landed.
      change (collision_count (bump self (zeros pre)))
        with (collision_count self + zeros pre).
      change (collision_logs (bump self (zeros pre)))
        with (collision_logs self).
      pose proof (range_split_index _ _ _ _ Hidx) as Hi.
      rewrite (zeros_range_prefix _ _ _ Hidx).
      destruct pre as [|j pre]; cbn [length] in Hi.
      * subst i. change (Z.of_nat 0 >? 0) with false. cbn. left.
        split; [reflexivity|lia].
      * destruct (Z.gtb_spec i 0); [|lia]. right. eexists.
        split; [reflexivity|]. cbn. rewrite Hps, length_app, length_fmap.
        cbn [length]. split; [lia|]. left. split; [reflexivity|lia].
    + apply insert_inv in Hr
        as [(_ & [= <- _ _])|[(_ & _ & [= <- _ _])|(_ & Hn & d & Hr)]];
        try (left; split; [reflexivity|lia]).
      apply insert_loop_inv in Hr; [|assumption]. cbn zeta in Hr.
      destruct Hr as (pre & _ & [(_ & [= -> _ _])
                                |[(i & rest & _ & _ & [= -> _ _])
                                 |(i & rest & d' & _ & _ & [=])]]);
        left; (split; [reflexivity|]); cbn;
        pose proof (zeros_nonneg pre); lia.
  - destruct (search self key) as [[self1 [[found pos0] ps]]|] eqn:Hr;
      [|discriminate].
    cbn. intros [= <-]. by eapply Hsearch.
  - destruct (delete self key) as [[self1 [[ok msg] ps]]|] eqn:Hr;
      [|discriminate].
    cbn. intros [= <-].
    apply delete_inv in Hr as (s1 & found & pos0 & Hs & Hcase).
    apply Hsearch in Hs.
    destruct Hcase as [(_ & -> & _)|(pr & e & _ & _ & _ & _ & ->)];
      exact Hs.
Qed.

Lemma reachable_counters n self :
  reachable n self ->
  Forall (fun log => 1 <= log_collision_count log) (collision_logs self) /\
  2 * insert_entries (collision_logs self) <= collision_count self.
Proof.
  induction 1 as [|self o self' _ [IHl IHc] Hstep]; [split; [constructor|done]|].
  destruct (step_counters _ _ _ Hstep)
    as [(-> & Hle)|(log & -> & Hlog & Hop)]; [split; [exact IHl|lia]|].
  split.
  - apply Forall_app. split; [exact IHl|]. by constructor.
  - rewrite insert_entries_app.
    destruct Hop as [(-> & ->)|(-> & ->)];
      [rewrite str_eqb_refl
      |change (str_eqb "SEARCH" "INSERT") with false; cbv iota]; lia.
Qed.

(** ** Insert after delete *)

Lemma delete_success_walk self key self' msg ps :
  delete self key = Ok (self', (true, msg, ps)) ->
  let pos := probe_pos (size self) key in
  exists pre i rest e,
    1 <= size self /\
    range (size self) = pre ++ i :: rest /\
    Forall (fun j => slot_skip key (table self) (pos j) = true) pre /\
    getitem (table self) (pos i) = Ok (Some e) /\
    slot_same key (table self) (pos i) = true /\
    ps = (pos <$> pre) ++ [pos i] /\
    msg = MsgDeleted (pos i) /\
    size self' = size self /\
    count self' = count self - 1 /\
    collision_count self' = collision_count self /\
    table self' =
    <[Z.to_nat (pos i) := Some {| product := product e; is_deleted := true |}]>
      (table self).
Proof.
  intros Hr pos.
  apply delete_inv in Hr as (self1 & found & pos0 & Hs & Hcase).
  destruct Hcase as [(_ & _ & [=] & _)|(pr & e & -> & Hg & _ & -> & ->)].
  pose proof (search_frame _ _ _ _ Hs) as (Hsize & Htbl & Hc & Hcc).
  apply search_outcome in Hs. cbn zeta in Hs. fold pos in Hs.
  destruct Hs as [([=] & _)|(Hn & pre & i & rest & d & Hidx & Hpre & Hps & Hend)].
  destruct Hend as [(_ & [=] & _)|(e' & Hg' & Hsame & _ & -> & _)].
  rewrite Htbl, Hg' in Hg. injection Hg as ->.
  exists pre, i, rest, e. cbn. rewrite Htbl, Hc, Hcc. done.
Qed.

Lemma slot_skip_not_same key tbl p :
  slot_skip key tbl p = true -> slot_same key tbl p = false.
Proof.
  intros H. destruct (slot_same key tbl p) eqn:Hs; [|reflexivity].
  by rewrite (slot_same_not_skip _ _ _ Hs) in H.
Qed.

(** After a delete of a key has succeeded, an insert of a product with
    that key lands, on the attempt where the key was or on an earlier
    tombstone of its walk. *)
Lemma insert_after_delete self p self' msg ps :
  table_ok self ->
  delete self (ma_san_pham p) = Ok (self', (true, msg, ps)) ->
  exists self'' pos1 ps1,
    insert self' p = Ok (self'', (true, MsgInserted pos1, ps1)) /\
    (length ps1 <= length ps)%nat.
Proof.
  intros Hok Hdel. set (key := ma_san_pham p) in *.
  destruct (delete_table_ok _ _ _ _ Hok Hdel) as [Hok' _].
  apply delete_success_walk in Hdel. cbn zeta in Hdel.
  set (pos := probe_pos (size self) key) in *.
  destruct Hdel as (pre & i & rest & e & Hn & Hidx & Hpre & Hg & Hsame & Hps
                    & _ & Hsize & Hcount & _ & Htbl).
  pose proof (range_split_in _ _ _ _ Hidx) as Hi.
  pose proof (probe_pos_range (size self) key i Hn) as Hp. fold pos in Hp.
  pose proof (getitem_Ok_bound _ _ _ (proj1 Hp) Hg) as Hb.
  (* the slot of the key is a tombstone now *)
  assert (Htomb : slot_free (table self') (pos i) = true).
  { unfold slot_free. by rewrite Htbl, getitem_insert_same by lia. }
  (* the earlier attempts hold no live copy of the key *)
  assert (Hearly : forall j, 0 <= j < i ->
            slot_same key (table self') (pos j) = false).
  { intros j Hj.
    assert (Hin : j ∈ pre) by (eapply in_range_prefix; eassumption).
    rewrite Forall_forall in Hpre. specialize (Hpre j Hin).
    pose proof (probe_pos_range (size self) key j Hn) as Hpj. fold pos in Hpj.
    destruct (Z.eq_dec (pos j) (pos i)) as [Heq|Hne].
    - rewrite Heq in Hpre. by rewrite (slot_same_not_skip _ _ _ Hsame) in Hpre.
    - unfold slot_same. rewrite Htbl, getitem_insert_other by lia.
      by apply slot_skip_not_same. }
  assert (Hlt : count self' < size self').
  { rewrite Hcount, Hsize. destruct Hok as [_ Hlen Hc _].
    pose proof (occupied_bound (table self)). lia. }
  destruct (insert_returns self' p Hok') as [[self'' [[ok m1] ps1]] Hr].
  pose proof Hr as Hr'.
  apply insert_inv in Hr' as [(Hge & _)|[(_ & Hneg & _)|(_ & _ & d & Hl)]];
    [lia|lia|].
  apply insert_loop_inv in Hl; [|lia]. cbn zeta in Hl.
  rewrite Hsize in Hl. fold key pos in Hl.
  assert (Hnot_other : slot_other key (table self') (pos i) = false)
    by (by apply slot_free_not_other).
  assert (Hpast : forall pre1 i1 rest1,
            range (size self) = pre1 ++ i1 :: rest1 ->
            Forall (fun j => slot_other key (table self') (pos j) = true)
                   pre1 ->
            i1 <= i).
  { intros pre1 i1 rest1 Hidx1 Hpre1.
    destruct (Z_le_gt_dec i1 i) as [|Hgt]; [assumption|exfalso].
    assert (Hin : i ∈ pre1) by (eapply in_range_prefix; [eassumption|lia]).
    rewrite Forall_forall in Hpre1. specialize (Hpre1 i Hin). congruence. }
  destruct Hl as (pre1 & Hpre1 & [(Hall & _)|[(i1 & rest1 & Hidx1 & Hs1 & _)
                                 |(i1 & rest1 & d1 & Hidx1 & Hf1 & Heq)]]).
  - exfalso. subst pre1. rewrite Forall_forall in Hpre1.
    assert (Hin : i ∈ range (size self))
      by (apply list_elem_of_In, in_range; lia).
    specialize (Hpre1 i Hin). congruence.
  - exfalso. pose proof (Hpast _ _ _ Hidx1 Hpre1) as Hle.
    pose proof (range_split_in _ _ _ _ Hidx1) as Hi1.
    destruct (Z.eq_dec i1 i) as [->|Hne].
    + unfold slot_free in Htomb. unfold slot_same in Hs1.
      destruct (getitem (table self') (pos i)) as [[e1|]|]; try discriminate.
      rewrite Htomb in Hs1. discriminate.
    + rewrite Hearly in Hs1 by lia. discriminate.
  - cbn [app] in Heq. injection Heq as _ -> -> ->.
    rewrite Hr. eexists _, _, _. split; [reflexivity|].
    pose proof (Hpast _ _ _ Hidx1 Hpre1) as Hle.
    pose proof (range_split_index _ _ _ _ Hidx1) as Hi1.
    pose proof (range_split_index _ _ _ _ Hidx) as Hi0.
    rewrite Hps, !length_app, !length_fmap. cbn [length]. lia.
Qed.

(** ** Probe sequences are initial segments of the walk *)

Lemma range_prefix_range n pre rest :
  range n = pre ++ rest -> pre = range (Z.of_nat (length pre)).
Proof.
  intros H. apply range_prefix in H. unfold range. by rewrite Nat2Z.id.
Qed.

Lemma walk_segment n (f : Z -> Z) pre i rest :
  range n = pre ++ i :: rest ->
  (f <$> pre) ++ [f i] =
  f <$> range (Z.of_nat (length ((f <$> pre) ++ [f i]))) /\
  Z.of_nat (length ((f <$> pre) ++ [f i])) <= n.
Proof.
  intros Hidx. split; [|by eapply walk_length].
  change (pre ++ i :: rest) with (pre ++ [i] ++ rest) in Hidx.
  rewrite app_assoc in Hidx. apply range_prefix_range in Hidx.
  rewrite length_app, length_fmap. cbn [length].
  rewrite length_app in Hidx. cbn [length] in Hidx.
  rewrite <- Hidx, fmap_app. reflexivity.
Qed.

Lemma range_length n : length (range n) = Z.to_nat n.
Proof. unfold range. by rewrite length_fmap, length_seq. Qed.

Lemma insert_probe_segment self p self' ok msg ps :
  insert self p = Ok (self', (ok, msg, ps)) ->
  ps = probe_pos (size self) (ma_san_pham p)
       <$> range (Z.of_nat (length ps)) /\
  Z.of_nat (length ps) <= Z.max 0 (size self).
Proof.
  intros Hr.
  apply insert_inv in Hr
    as [(_ & [= _ _ _ ->])|[(_ & _ & [= _ _ _ ->])|(_ & Hn & d & Hr)]];
    [split; [reflexivity|cbn; lia]..|].
  apply insert_loop_inv in Hr; [|assumption]. cbn zeta in Hr.
  destruct Hr as (pre & _ & [(Hidx & [= _ _ _ ->])
                            |[(i & rest & Hidx & _ & [= _ _ _ ->])
                             |(i & rest & d' & Hidx & _ & [= _ _ _ ->])]]);
    cbn [app].
  - subst pre. rewrite length_fmap, range_length, Z2Nat.id by lia.
    split; [reflexivity|lia].
  - destruct (walk_segment _ (probe_pos (size self) (ma_san_pham p))
                _ _ _ Hidx) as [Heq Hle]. split; [exact Heq|lia].
  - destruct (walk_segment _ (probe_pos (size self) (ma_san_pham p))
                _ _ _ Hidx) as [Heq Hle]. split; [exact Heq|lia].
Qed.

Lemma search_probe_segment self key self' found pos0 ps :
  search self key = Ok (self', (found, pos0, ps)) ->
  ps = probe_pos (size self) key <$> range (Z.of_nat (length ps)) /\
  Z.of_nat (length ps) <= Z.max 0 (size self).
Proof.
  intros Hr. apply search_outcome in Hr. cbn zeta in Hr.
  destruct Hr as [(_ & _ & _ & [(_ & ->)|(Hn & _ & ->)])
                 |(Hn & pre & i & rest & d & Hidx & _ & -> & _)].
  - split; [reflexivity|cbn; lia].
  - rewrite length_fmap, range_length, Z2Nat.id by lia.
    split; [reflexivity|lia].
  - destruct (walk_segment _ (probe_pos (size self) key) _ _ _ Hidx)
      as [Heq Hle]. split; [exact Heq|lia].
Qed.

(** ** A table without slots, a fresh table *)

Lemma search_zero_capacity self key :
  size self = 0 -> search self key = Raise ZeroDivisionError.
Proof.
  intros H. unfold search, details_init, _hash1, pymod. by rewrite H.
Qed.

Lemma probe_pos_0 n key : 1 <= n -> probe_pos n key 0 = h1 n key.
Proof.
  intros Hn. unfold probe_pos. rewrite Z.mul_0_l, Z.add_0_r.
  unfold h1. apply Z.mod_mod. lia.
Qed.

Lemma slot_empty_init n q :
  0 <= q < n -> slot_empty (table (DoubleHashTable_init n)) q = true.
Proof.
  intros Hq. unfold slot_empty. rewrite getitem_nonneg by lia. cbn.
  rewrite lookup_replicate_2 by lia. reflexivity.
Qed.

Lemma range_cons_0 n :
  1 <= n -> range n = 0 :: (Z.of_nat <$> seq 1 (Z.to_nat n - 1)).
Proof.
  intros H. unfold range.
  replace (Z.to_nat n) with (S (Z.to_nat n - 1)) at 1 by lia.
  reflexivity.
Qed.

Lemma search_fresh n key :
  1 <= n ->
  search (DoubleHashTable_init n) key =
  Ok (DoubleHashTable_init n, (None, -1, [h1 n key])).
Proof.
  intros Hn. unfold search.
  destruct (details_init_ok (DoubleHashTable_init n) key) as [d ->];
    [cbn; lia|].
  cbn [bind]. change (size (DoubleHashTable_init n)) with n.
  rewrite range_cons_0 by lia.
  destruct (search_turn_empty key (DoubleHashTable_init n) 0
              (Z.of_nat <$> seq 1 (Z.to_nat n - 1)) [] d)
    as [d' ->]; [cbn; lia| |].
  - apply slot_empty_init. apply probe_pos_range. cbn. lia.
  - change (size (DoubleHashTable_init n)) with n.
    rewrite probe_pos_0 by lia. reflexivity.
Qed.

(** ** Import of an export of an import *)

Lemma import_export_import data :
  from_dict (to_dict (from_dict data)) = from_dict data.
Proof.
  set (self := from_dict data).
  unfold from_dict at 1. unfold to_dict. cbn.
  rewrite (logs_roundtrip self (from_dict_constructed data)), slots_roundtrip.
  by destruct self.
Qed.

(** * The claims of the specification *)

(** C1 on the code: the table reached on capacity 5 by insert "A",
    insert "F", delete "A" has a tombstone in slot 0 and "F" live in
    slot 2; a second insert of "F" does not fail as a duplicate but
    takes the tombstoned slot 0, so slots 0 and 2 both hold a live "F". *)
Theorem insert_duplicates_key_over_tombstone :
  reachable 5 table_aF /\
  table table_aF = [entry_of "A" true; None; entry_of "F" false; None; None] /\
  insert table_aF (sp "F") = Ok (table_FF, (true, MsgInserted 0, [0])) /\
  table table_FF = [entry_of "F" false; None; entry_of "F" false; None; None] /\
  reachable 5 table_FF /\
  ~ unique_live_keys (table table_FF).
Proof.
  split; [|split; [|split; [|split; [|split]]]].
  - apply (run_reachable 5
             [OpInsert (sp "A"); OpInsert (sp "F"); OpDelete "A"]
             (DoubleHashTable_init 5)); [apply reach_init|].
    vm_compute. reflexivity.
  - vm_compute. reflexivity.
  - vm_compute. reflexivity.
  - vm_compute. reflexivity.
  - apply (run_reachable 5
             [OpInsert (sp "A"); OpInsert (sp "F"); OpDelete "A";
              OpInsert (sp "F")]
             (DoubleHashTable_init 5)); [apply reach_init|].
    vm_compute. reflexivity.
  - intros Huniq.
    assert (Htbl : table table_FF =
                   [entry_of "F" false; None; entry_of "F" false; None; None])
      by (vm_compute; reflexivity).
    rewrite Htbl in Huniq.
    assert (H : 0%nat = 2%nat); [|discriminate H].
    apply (Huniq 0%nat 2%nat
             {| product := Some (sp "F"); is_deleted := false |}
             {| product := Some (sp "F"); is_deleted := false |}
             (sp "F") (sp "F")); reflexivity.
Qed.

(** C2, as the code has it: on a well-formed table with fewer live
    entries than slots, an insert whose step [h2] is coprime to the
    capacity, and every insert when the capacity is prime, returns
    within [capacity] attempts, either as a duplicate or landed in a
    slot that was empty or tombstoned; it does not end in the exhausted
    failure. *)
Theorem insert_not_exhausted_when_coprime
    (self : DoubleHashTable) (p : Product) :
  table_ok self ->
  count self < size self ->
  Z.prime (size self) \/
  Z.gcd (h2 (size self) (ma_san_pham p)) (size self) = 1 ->
  exists self' ok msg ps,
    insert self p = Ok (self', (ok, msg, ps)) /\
    Z.of_nat (length ps) <= size self /\
    msg <> MsgCouldNotInsert /\
    ((ok = false /\ msg = MsgExists) \/
     (exists pos, ok = true /\ msg = MsgInserted pos /\
                  last ps = Some pos /\
                  slot_free (table self) pos = true)).
Proof.
  intros Hok Hlt Hg.
  assert (Hco : Z.gcd (h2 (size self) (ma_san_pham p)) (size self) = 1)
    by (destruct Hg as [Hp|Hg];
        [exact (prime_capacity_coprime _ _ Hp)|exact Hg]).
  destruct (insert_coprime_outcome self p Hok Hlt Hco)
    as (self' & ok & msg & pre & i & rest & Hr & Hidx & _ & Hcase).
  eexists self', ok, msg, _. split; [exact Hr|].
  split; [exact (walk_length _ _ _ _ _ Hidx)|].
  destruct Hcase as [(_ & -> & -> & _)|(Hf & -> & -> & _)].
  - split; [discriminate|by left].
  - split; [discriminate|right]. eexists.
    repeat split; [apply last_snoc|exact Hf].
Qed.

Lemma insert_not_exhausted_when_coprime_witness :
  exists self' ok msg ps,
    insert table_A (sp "F") = Ok (self', (ok, msg, ps)) /\
    msg <> MsgCouldNotInsert.
Proof.
  destruct (insert_not_exhausted_when_coprime table_A (sp "F"))
    as (self' & ok & msg & ps & Hr & _ & Hmsg & _).
  - constructor; cbn; try reflexivity; try lia.
    intros [|[|[|[|[|j]]]]] e; cbn; intros [= <-]; discriminate.
  - cbn. lia.
  - right. vm_compute. reflexivity.
  - by exists self', ok, msg, ps.
Defined.

(** The claim of C2 as written fails on capacity 6: with "0" in slot 0
    and "3" in slot 3 (two live entries, six slots), the key "H" has
    [h1 = 0] and step 3, visits slots 0 and 3 in turn and ends in the
    exhausted failure. The table is the one [insert "0"; insert "3"]
    builds from a fresh one. *)
Lemma insert_exhausts_below_capacity :
  run (DoubleHashTable_init 6) [OpInsert (sp "0"); OpInsert (sp "3")]
  = Ok table_03 /\
  count table_03 < size table_03 /\
  insert table_03 (sp "H") =
  Ok (bump table_03 1, (false, MsgCouldNotInsert, [0; 3; 0; 3; 0; 3])).
Proof. repeat split; vm_compute; reflexivity. Qed.

(** C3, as the code has it: an insert whose first attempt hits a live
    entry with another key and which then lands raises the lifetime
    collision counter by two (once on the first attempt, once on
    landing), visits more than one slot, and appends one log entry, for
    this key and operation INSERT, holding the returned probe sequence
    and a collision count of its length minus one. *)
Theorem insert_collision_counts_twice
    (self : DoubleHashTable) (p : Product) self' msg ps :
  slot_other (ma_san_pham p) (table self)
             (probe_pos (size self) (ma_san_pham p) 0) = true ->
  insert self p = Ok (self', (true, msg, ps)) ->
  collision_count self' = collision_count self + 2 /\
  1 < Z.of_nat (length ps) /\
  exists log,
    collision_logs self' = collision_logs self ++ [log] /\
    log_key log = ma_san_pham p /\
    log_operation log = "INSERT"%string /\
    log_probe_sequence log = ps /\
    log_collision_count log = Z.of_nat (length ps) - 1.
Proof.
  intros Hother Hr. pose proof (insert_logs _ _ _ _ _ _ Hr) as Hlogs.
  apply insert_success_inv in Hr. cbn zeta in Hr.
  destruct Hr as (Hn & _ & pre & i & rest & d & Hidx & _ & Hf & Hps & _ & ->).
  pose proof (range_split_index _ _ _ _ Hidx) as Hi.
  pose proof (zeros_range_prefix _ _ _ Hidx) as Hz.
  destruct pre as [|j pre].
  - cbn [length] in Hi. change (Z.of_nat 0) with 0 in Hi. subst i.
    apply (slot_free_not_other (ma_san_pham p)) in Hf. congruence.
  - cbn [length] in Hi.
    assert (Hlen : 1 < Z.of_nat (length ps)).
    { rewrite Hps, length_app, length_fmap. cbn [length]. lia. }
    change (zeros (j :: pre) = 1) in Hz. rewrite Hz in *.
    rewrite collision_count_landed.
    destruct (Z.gtb_spec i 0); [|lia].
    split; [cbn; lia|]. split; [assumption|].
    cbn [andb] in Hlogs. destruct (Z.ltb_spec 1 (Z.of_nat (length ps))); [|lia].
    destruct Hlogs as (res & d' & ->). by eexists.
Qed.

Lemma insert_collision_counts_twice_witness :
  exists self',
    insert table_A (sp "F") = Ok (self', (true, MsgInserted 2, [0; 2])) /\
    collision_count self' = collision_count table_A + 2.
Proof.
  eexists. split; [vm_compute; reflexivity|].
  apply (insert_collision_counts_twice table_A (sp "F") _ (MsgInserted 2)
           [0; 2]); vm_compute; reflexivity.
Defined.

(** The claim of C3 as written (the counter goes up by exactly one) fails
    on a table of capacity 5 holding "A": inserting "F" hits "A" in slot
    0, lands in slot 2, and the counter goes from 0 to 2. *)
Lemma insert_collision_counted_once_fails :
  slot_other "F" (table table_A) (probe_pos 5 "F" 0) = true /\
  exists self',
    insert table_A (sp "F") = Ok (self', (true, MsgInserted 2, [0; 2])) /\
    collision_count self' <> collision_count table_A + 1.
Proof.
  split; [vm_compute; reflexivity|].
  eexists. split; [vm_compute; reflexivity|]. vm_compute. discriminate.
Qed.

(** C4: the hash derivation follows the formulas of the specification:
    for every key (any sequence of code points) and every capacity of at
    least one, [h1] is the sum of the key's code points modulo the
    capacity; [R] is the greatest prime strictly below the capacity, or
    1 when there is none; [h2] is [R] minus that sum modulo [R] and lies
    in [1, R]; and the probe position of attempt [i] is
    [(h1 + i * h2) mod capacity]. *)
Theorem hash_derivation_formulas (self : DoubleHashTable) (key : str) :
  1 <= size self ->
  let n := size self in
  let R := _get_prime_less_than n in
  let total := foldr Z.add 0 (Z.of_N <$> key) in
  _hash1 self key = Ok (total mod n) /\
  ((Z.prime R /\ R < n /\ forall p, Z.prime p -> p < n -> p <= R) \/
   (R = 1 /\ forall p, Z.prime p -> ~ p < n)) /\
  (exists s, _hash2 self key = Ok s /\
             s = R - total mod R /\ 1 <= s <= R) /\
  forall i, 0 <= i ->
    exists a b, _hash1 self key = Ok a /\ _hash2 self key = Ok b /\
                _probe self key i = Ok ((a + i * b) mod n).
Proof.
  intros Hn n R total. subst n R total.
  rewrite <- ascii_sum_code_points.
  split; [apply hash1_ok; lia|].
  split; [apply get_prime_less_than_spec|].
  split.
  - eexists. split; [apply hash2_ok|]. split; [reflexivity|].
    apply h2_range.
  - intros i _. do 2 eexists.
    split; [apply hash1_ok; lia|]. split; [apply hash2_ok|].
    rewrite probe_ok by lia. reflexivity.
Qed.

Lemma hash_derivation_formulas_witness :
  (_hash1 (DoubleHashTable_init 11) "A1" = Ok 4 /\
   _hash2 (DoubleHashTable_init 11) "A1" = Ok 5) /\
  (_hash1 (DoubleHashTable_init 11) [83%N; 7842%N] = Ok 5 /\
   _hash2 (DoubleHashTable_init 11) [83%N; 7842%N] = Ok 6).
Proof.
  split.
  - pose proof (hash_derivation_formulas (DoubleHashTable_init 11) "A1"
                  ltac:(cbn; lia)) as (H1 & _ & (s & H2 & -> & _) & _).
    split; [exact H1|exact H2].
  - pose proof (hash_derivation_formulas (DoubleHashTable_init 11)
                  [83%N; 7842%N] ltac:(cbn; lia))
      as (H1 & _ & (s & H2 & -> & _) & _).
    split; [exact H1|exact H2].
Defined.

(** C5, as the code has it. On every table and for every product, an
    insert that succeeds names the position it landed at, and a search
    for the key right after returns that product, the same position and
    the same probe sequence. The insert does succeed on a well-formed
    table with fewer live entries than slots, for a key that is not
    stored live, when the capacity is prime or the step [h2] of the key
    is coprime to it. *)
Theorem insert_then_search_agree (self : DoubleHashTable) (p : Product) :
  (forall self' msg ps,
     insert self p = Ok (self', (true, msg, ps)) ->
     exists pos self'',
       msg = MsgInserted pos /\
       search self' (ma_san_pham p) = Ok (self'', (Some p, pos, ps))) /\
  (table_ok self ->
   count self < size self ->
   ~ stored_live (ma_san_pham p) (table self) ->
   Z.prime (size self) \/
   Z.gcd (h2 (size self) (ma_san_pham p)) (size self) = 1 ->
   exists self' pos ps,
     insert self p = Ok (self', (true, MsgInserted pos, ps))).
Proof.
  split.
  - intros self' msg ps Hr.
    apply insert_success_inv in Hr. cbn zeta in Hr.
    destruct Hr
      as (Hn & _ & pre & i & rest & d & Hidx & Hpre & Hf & -> & -> & ->).
    destruct (search_after_landed self p i pre rest d (zeros pre)
                Hn Hidx Hpre Hf) as [self'' Hs].
    by eexists _, self''.
  - intros Hok Hlt Hfresh Hg.
    assert (Hco : Z.gcd (h2 (size self) (ma_san_pham p)) (size self) = 1)
      by (destruct Hg as [Hp|Hg];
          [exact (prime_capacity_coprime _ _ Hp)|exact Hg]).
    destruct (insert_coprime_outcome self p Hok Hlt Hco)
      as (self' & ok & msg & pre & i & rest & Hr & _ & _ & Hcase).
    destruct Hcase as [(Hs & _)|(_ & -> & -> & _)].
    + exfalso. apply Hfresh. eapply slot_same_stored; [|exact Hs].
      apply probe_pos_range. exact (ok_size _ Hok).
    + by eexists self', _, _.
Qed.

Lemma insert_then_search_agree_witness :
  exists self' self'',
    insert table_A (sp "F") = Ok (self', (true, MsgInserted 2, [0; 2])) /\
    search self' "F" = Ok (self'', (Some (sp "F"), 2, [0; 2])).
Proof.
  destruct (insert_then_search_agree table_A (sp "F")) as [Hagree Hlands].
  destruct Hlands as (self' & pos & ps & Hi).
  - constructor; cbn; try reflexivity; try lia.
    intros [|[|[|[|[|j]]]]] e; cbn; intros [= <-]; discriminate.
  - cbn. lia.
  - intros ([|[|[|[|[|j]]]]] & e & pr & Hj & Hd & Hp & Hk); cbn in Hj;
      try discriminate.
    injection Hj as <-. injection Hp as <-. discriminate.
  - right. vm_compute. reflexivity.
  - assert (Heq : insert table_A (sp "F") =
                  Ok (table_AF, (true, MsgInserted 2, [0; 2])))
      by (vm_compute; reflexivity).
    rewrite Heq in Hi. injection Hi as <- <- <-.
    destruct (Hagree _ _ _ Heq) as (pos' & self'' & [= <-] & Hs).
    exists table_AF, self''. split; [exact Heq|exact Hs].
Defined.

(** The claim of C5 as written fails on capacity 6: with "0" in slot 0
    and "3" in slot 3 (two live entries), the key "H" is not stored, yet
    its insert visits slots 0 and 3 in turn and does not succeed. *)
Lemma insert_fresh_key_fails_below_capacity :
  count table_03 < size table_03 /\
  ~ stored_live "H" (table table_03) /\
  insert table_03 (sp "H") =
  Ok (bump table_03 1, (false, MsgCouldNotInsert, [0; 3; 0; 3; 0; 3])).
Proof.
  split; [cbn; lia|]. split; [|vm_compute; reflexivity].
  intros ([|[|[|[|[|[|j]]]]]] & e & pr & Hj & Hd & Hp & Hk); cbn in Hj;
    try discriminate; injection Hj as <-; injection Hp as <-; discriminate.
Qed.

(** C6 on the code: on the table above, with a live "F" in slots 0 and
    2, delete "F" succeeds and tombstones slot 0, and the search for "F"
    that follows walks past slot 0 and finds the other "F" in slot 2. *)
Theorem search_finds_key_after_delete :
  reachable 5 table_FF /\
  delete table_FF "F" = Ok (table_fF, (true, MsgDeleted 0, [0])) /\
  table table_fF = [entry_of "F" true; None; entry_of "F" false; None; None] /\
  exists self', search table_fF "F" = Ok (self', (Some (sp "F"), 2, [0; 2])).
Proof.
  split; [|split; [|split]].
  - apply (run_reachable 5
             [OpInsert (sp "A"); OpInsert (sp "F"); OpDelete "A";
              OpInsert (sp "F")]
             (DoubleHashTable_init 5)); [apply reach_init|].
    vm_compute. reflexivity.
  - vm_compute. reflexivity.
  - vm_compute. reflexivity.
  - eexists. vm_compute. reflexivity.
Qed.

(** C7: when the live-entry counter has reached the capacity, [insert]
    returns the table-full failure with an empty probe sequence and the
    table (slots, counters and log) is returned as it was. *)
Theorem insert_full_short_circuit (self : DoubleHashTable) (p : Product) :
  count self >= size self ->
  insert self p = Ok (self, (false, MsgFull, [])).
Proof.
  intros H. unfold insert.
  destruct (Z.geb_spec (count self) (size self)) as [_|Hlt]; [reflexivity|lia].
Qed.

Lemma insert_full_short_circuit_witness :
  insert (set_count (DoubleHashTable_init 5) 5) (sp "X") =
  Ok (set_count (DoubleHashTable_init 5) 5, (false, MsgFull, [])).
Proof. apply insert_full_short_circuit. cbn. lia. Defined.

(** C8, as the code has it: an insert that lands after more than one
    attempt, and a search that ends on a match or on an empty slot after
    more than one attempt, append exactly one entry, holding the
    returned probe sequence and a collision count of its length minus
    one; every other insert or search that returns (one slot visited, an
    insert that fails, a search that uses up its attempts) leaves the
    log as it was; a delete appends what its search appends. The earlier
    entries are always kept, unchanged and in order. *)
Theorem collision_log_entries :
  (forall self p self' ok msg ps,
     insert self p = Ok (self', (ok, msg, ps)) ->
     if ok && (1 <? Z.of_nat (length ps))
     then exists log,
            collision_logs self' = collision_logs self ++ [log] /\
            log_operation log = "INSERT"%string /\
            log_probe_sequence log = ps /\
            log_collision_count log = Z.of_nat (length ps) - 1
     else collision_logs self' = collision_logs self) /\
  (forall self key self' found pos0 ps,
     search self key = Ok (self', (found, pos0, ps)) ->
     if search_stopped (table self) found ps && (1 <? Z.of_nat (length ps))
     then exists log,
            collision_logs self' = collision_logs self ++ [log] /\
            log_operation log = "SEARCH"%string /\
            log_probe_sequence log = ps /\
            log_collision_count log = Z.of_nat (length ps) - 1
     else collision_logs self' = collision_logs self) /\
  (forall self key self' ok msg ps,
     delete self key = Ok (self', (ok, msg, ps)) ->
     exists self1 found pos0,
       search self key = Ok (self1, (found, pos0, ps)) /\
       collision_logs self' = collision_logs self1).
Proof.
  split; [|split].
  - intros self p self' ok msg ps Hr. apply insert_logs in Hr.
    destruct (ok && (1 <? Z.of_nat (length ps))); [|exact Hr].
    destruct Hr as (res & d & ->). by eexists.
  - intros self key self' found pos0 ps Hr. apply search_logs in Hr.
    destruct (search_stopped (table self) found ps
              && (1 <? Z.of_nat (length ps))); [|exact Hr].
    destruct Hr as (res & d & ->). by eexists.
  - intros self key self' ok msg ps Hr.
    apply delete_logs in Hr. exact Hr.
Qed.

Lemma collision_log_entries_witness :
  exists self' log,
    insert table_A (sp "F") = Ok (self', (true, MsgInserted 2, [0; 2])) /\
    collision_logs self' = collision_logs table_A ++ [log] /\
    log_collision_count log = 1.
Proof.
  destruct (proj1 collision_log_entries table_A (sp "F")
              _ true (MsgInserted 2) [0; 2] eq_refl)
    as (log & Hl & _ & _ & Hc).
  eexists _, log. split; [reflexivity|]. split; [exact Hl|exact Hc].
Defined.

(** The claim of C8 as written fails: on capacity 5 with "A" in slot 0
    and "F" in slot 2, inserting "F" again visits slots 0 and 2 and
    fails as a duplicate without a log entry. *)
Lemma collision_log_every_long_probe_fails :
  exists self',
    insert table_AF (sp "F") = Ok (self', (false, MsgExists, [0; 2])) /\
    collision_logs self' = collision_logs table_AF.
Proof. eexists. split; vm_compute; reflexivity. Qed.

(** C9: importing what a table exports gives the table back: the same
    capacity, live-entry count, lifetime collision count, the same log
    entries field by field and the same slots (empty, or the same
    product with the same tombstone flag). The log entries are those the
    constructor of [CollisionLog] makes, as all entries of a table are. *)
Theorem export_import_roundtrip (self : DoubleHashTable) :
  Forall constructed (collision_logs self) ->
  from_dict (to_dict self) = self /\
  size (from_dict (to_dict self)) = size self /\
  count (from_dict (to_dict self)) = count self /\
  collision_count (from_dict (to_dict self)) = collision_count self /\
  collision_logs (from_dict (to_dict self)) = collision_logs self /\
  table (from_dict (to_dict self)) = table self.
Proof.
  intros Hlogs.
  assert (Heq : from_dict (to_dict self) = self).
  { unfold from_dict, to_dict. cbn.
    rewrite (logs_roundtrip self Hlogs), slots_roundtrip.
    by destruct self. }
  rewrite Heq. done.
Qed.

Lemma export_import_roundtrip_witness :
  from_dict (to_dict table_AF) = table_AF.
Proof.
  refine (proj1 (export_import_roundtrip table_AF _)).
  repeat constructor.
Defined.

(** C10: after any sequence of calls on a fresh table every entry of the
    log has operation INSERT or SEARCH; a delete appends to the log
    exactly what the search it runs appends, so it is recorded as a
    SEARCH entry or not at all. *)
Theorem log_operations_insert_or_search (n : Z) (self : DoubleHashTable) :
  reachable n self ->
  Forall (fun log =>
            (log_operation log = "INSERT" \/ log_operation log = "SEARCH")%string)
         (collision_logs self) /\
  forall key self' ok msg ps,
    delete self key = Ok (self', (ok, msg, ps)) ->
    exists self1 found pos0,
      search self key = Ok (self1, (found, pos0, ps)) /\
      collision_logs self' = collision_logs self1 /\
      Forall (fun log =>
                (log_operation log = "INSERT" \/
                 log_operation log = "SEARCH")%string)
             (collision_logs self').
Proof.
  intros Hreach. split.
  - eapply Forall_impl; [apply (reachable_logs _ _ Hreach)|].
    cbn. intros log [H _]. exact H.
  - intros key self' ok msg ps Hr.
    assert (Hreach' : reachable n self').
    { eapply reach_step with (o := OpDelete key); [exact Hreach|].
      cbn. rewrite Hr. reflexivity. }
    apply delete_logs in Hr as (self1 & found & pos0 & Hs & Hl).
    exists self1, found, pos0. split; [exact Hs|]. split; [exact Hl|].
    eapply Forall_impl; [apply (reachable_logs _ _ Hreach')|].
    cbn. intros log [H _]. exact H.
Qed.

Lemma log_operations_insert_or_search_witness :
  Forall (fun log =>
            (log_operation log = "INSERT" \/ log_operation log = "SEARCH")%string)
         (collision_logs table_AF).
Proof.
  refine (proj1 (log_operations_insert_or_search 5 table_AF _)).
  apply reach_step with (self := table_A) (o := OpInsert (sp "F"));
    [|reflexivity].
  apply reach_step with (self := DoubleHashTable_init 5)
                        (o := OpInsert (sp "A")); [|reflexivity].
  constructor.
Defined.


(** * Further properties of the code *)

(** A table reached on capacity 5 by the given calls. *)
Ltac reach5 ops :=
  apply (run_reachable 5 ops (DoubleHashTable_init 5));
  [apply reach_init | vm_compute; reflexivity].

(** X1: [is_prime] (the helper of [_get_prime_less_than]) returns [True]
    exactly on the prime numbers. *)
Theorem is_prime_decides_primality (num : Z) :
  is_prime num = true <-> Z.prime num.
Proof. apply is_prime_true_iff. Qed.

(** X2: on a table of capacity 0, [search] and [delete] raise
    [ZeroDivisionError] (from [_hash1]); [insert] reports a full table as
    long as the live count is not negative; [_hash2] does not raise and
    gives a step of at least one. *)
Theorem zero_capacity_calls (self : DoubleHashTable) (key : str)
    (p : Product) :
  size self = 0 ->
  search self key = Raise ZeroDivisionError /\
  delete self key = Raise ZeroDivisionError /\
  (0 <= count self -> insert self p = Ok (self, (false, MsgFull, []))) /\
  exists s, _hash2 self key = Ok s /\ 1 <= s.
Proof.
  intros H0. split; [by apply search_zero_capacity|]. split.
  - unfold delete. by rewrite search_zero_capacity.
  - split.
    + intros Hc. unfold insert.
      destruct (Z.geb_spec (count self) (size self)); [reflexivity|lia].
    + eexists. split; [apply hash2_ok|]. apply h2_range.
Qed.

Lemma zero_capacity_calls_witness :
  search (DoubleHashTable_init 0) "A" = Raise ZeroDivisionError /\
  insert (DoubleHashTable_init 0) (sp "A") =
  Ok (DoubleHashTable_init 0, (false, MsgFull, [])).
Proof.
  destruct (zero_capacity_calls (DoubleHashTable_init 0) "A" (sp "A")
              eq_refl) as (Hs & _ & Hi & _).
  split; [exact Hs|]. apply Hi. cbn. lia.
Defined.

(** X3: every table reached from a fresh one of capacity [n >= 1] keeps
    its capacity and its [n] slots, its live counter equals the number of
    live slots, and the counter stays between 0 and [n]. *)
Theorem reachable_counts (n : Z) (self : DoubleHashTable) :
  1 <= n -> reachable n self ->
  size self = n /\
  Z.of_nat (length (table self)) = n /\
  count self = occupied (table self) /\
  0 <= count self <= n.
Proof.
  intros Hn Hreach.
  destruct (reachable_table_ok n self Hn Hreach) as [[_ Hlen Hc _] Hsize].
  pose proof (occupied_bound (table self)).
  repeat split; try lia; congruence.
Qed.

Lemma reachable_counts_witness :
  size table_AF = 5 /\ count table_AF = occupied (table table_AF).
Proof.
  destruct (reachable_counts 5 table_AF) as (Hs & _ & Hc & _).
  - lia.
  - reach5 [OpInsert (sp "A"); OpInsert (sp "F")].
  - split; [exact Hs|exact Hc].
Defined.

(** X4: on a fresh table with at least one slot every sequence of
    inserts, searches and deletes runs to its end: no call raises. *)
Theorem calls_never_raise (n : Z) (ops : list op) :
  1 <= n -> exists self, run (DoubleHashTable_init n) ops = Ok self.
Proof. intros Hn. apply run_returns. by apply table_ok_init. Qed.

Lemma calls_never_raise_witness :
  exists self,
    run (DoubleHashTable_init 5)
        [OpInsert (sp "A"); OpDelete "B"; OpSearch "A"] = Ok self.
Proof. apply calls_never_raise. lia. Defined.

(** X5: [search] changes nothing but the log: capacity, slots, live
    counter and collision counter are as before. *)
Theorem search_only_logs (self : DoubleHashTable) (key : str) self' r :
  search self key = Ok (self', r) ->
  size self' = size self /\ table self' = table self /\
  count self' = count self /\ collision_count self' = collision_count self.
Proof. apply search_frame. Qed.

Lemma search_only_logs_witness :
  exists self',
    search table_AF "F" = Ok (self', (Some (sp "F"), 2, [0; 2])) /\
    table self' = table table_AF.
Proof.
  eexists. split; [vm_compute; reflexivity|].
  eapply (search_only_logs table_AF "F"). vm_compute. reflexivity.
Defined.

(** X6: a search that returns a product found it in a live entry stored
    under the searched key, in the slot it reports, which is in range
    and is the last position of the probe sequence; a search that
    returns no product reports position -1. *)
Theorem search_returns_stored_entry
    (self : DoubleHashTable) (key : str) self' found pos0 ps :
  search self key = Ok (self', (found, pos0, ps)) ->
  match found with
  | Some pr =>
      exists e,
        0 <= pos0 < size self /\
        table self !! Z.to_nat pos0 = Some (Some e) /\
        is_deleted e = false /\ product e = Some pr /\
        ma_san_pham pr = key /\ last ps = Some pos0
  | None => pos0 = -1
  end.
Proof. apply search_sound. Qed.

Lemma search_returns_stored_entry_witness :
  exists e, table table_AF !! Z.to_nat 2 = Some (Some e) /\
            product e = Some (sp "F").
Proof.
  assert (Hs : exists self',
             search table_AF "F" = Ok (self', (Some (sp "F"), 2, [0; 2])))
    by (eexists; vm_compute; reflexivity).
  destruct Hs as [self' Hs].
  destruct (search_returns_stored_entry _ _ _ _ _ _ Hs)
    as (e & _ & Hl & _ & Hp & _).
  exists e. split; [exact Hl|exact Hp].
Defined.

(** X7: on every table reached from a fresh one with at least one slot,
    a search for a key that is stored live finds a product with that
    key (also when the table holds tombstones or a second copy). *)
Theorem search_finds_stored_key (n : Z) (self : DoubleHashTable)
    (key : str) :
  1 <= n -> reachable n self -> stored_live key (table self) ->
  exists self' pr pos0 ps,
    search self key = Ok (self', (Some pr, pos0, ps)) /\
    ma_san_pham pr = key.
Proof.
  intros Hn Hreach Hstored. apply search_complete; [|  |exact Hstored].
  - by destruct (reachable_table_ok n self Hn Hreach).
  - by eapply reachable_findable.
Qed.

Lemma search_finds_stored_key_witness :
  exists self' pr pos0 ps,
    search table_aF "F" = Ok (self', (Some pr, pos0, ps)) /\
    ma_san_pham pr = "F"%string.
Proof.
  apply (search_finds_stored_key 5 table_aF "F").
  - lia.
  - reach5 [OpInsert (sp "A"); OpInsert (sp "F"); OpDelete "A"].
  - exists 2%nat, {| product := Some (sp "F"); is_deleted := false |},
      (sp "F").
    split; [vm_compute; reflexivity|]. repeat split.
Defined.

(** X8: tombstones are transparent to the other keys: after a delete of
    one key has succeeded, a search for any other key returns the same
    product, position and probe sequence as before the delete. *)
Theorem delete_keeps_other_searches
    (self : DoubleHashTable) (key key' : str) self' msg ps s1 r :
  delete self key = Ok (self', (true, msg, ps)) ->
  key' <> key ->
  search self key' = Ok (s1, r) ->
  exists s2, search self' key' = Ok (s2, r).
Proof. apply search_other_key_after_delete. Qed.

Lemma delete_keeps_other_searches_witness :
  exists s2, search table_aF "F" = Ok (s2, (Some (sp "F"), 2, [0; 2])).
Proof.
  eapply (delete_keeps_other_searches table_AF "A" "F" table_aF
            (MsgDeleted 0) [0]).
  - vm_compute. reflexivity.
  - discriminate.
  - vm_compute. reflexivity.
Defined.

(** X9: on a well-formed table whose live keys are unique, a key is
    gone after its delete has succeeded: the search that follows returns
    no product. *)
Theorem deleted_key_not_found
    (self : DoubleHashTable) (key : str) self' msg ps :
  table_ok self ->
  unique_live_keys (table self) ->
  delete self key = Ok (self', (true, msg, ps)) ->
  exists self'' ps', search self' key = Ok (self'', (None, -1, ps')).
Proof. apply search_deleted_key_unique. Qed.

Lemma deleted_key_not_found_witness :
  exists self' self'' ps',
    delete table_A "A" = Ok (self', (true, MsgDeleted 0, [0])) /\
    search self' "A" = Ok (self'', (None, -1, ps')).
Proof.
  assert (Hd : exists self',
             delete table_A "A" = Ok (self', (true, MsgDeleted 0, [0])))
    by (eexists; vm_compute; reflexivity).
  destruct Hd as [self' Hd].
  destruct (deleted_key_not_found table_A "A" self' (MsgDeleted 0) [0])
    as (self'' & ps' & Hs).
  - constructor; cbn; try reflexivity; try lia.
    intros [|[|[|[|[|j]]]]] e; cbn; intros [= <-]; discriminate.
  - intros [|[|[|[|[|j1]]]]] [|[|[|[|[|j2]]]]] e1 e2 p1 p2; cbn;
      intros; try discriminate; reflexivity.
  - exact Hd.
  - by exists self', self'', ps'.
Defined.

(** X10: the live keys stay unique under every call except an insert of
    a key that is already stored live. *)
Theorem unique_keys_preserved (self : DoubleHashTable) (o : op) self' :
  unique_live_keys (table self) ->
  (forall p, o = OpInsert p -> ~ stored_live (ma_san_pham p) (table self)) ->
  step self o = Ok self' ->
  unique_live_keys (table self').
Proof.
  intros Huniq Hfresh. destruct o as [p|key|key]; cbn [step].
  - destruct (insert self p) as [[self1 r]|] eqn:Hr; [|discriminate].
    cbn. intros [= <-].
    eapply insert_fresh_keeps_unique; [exact Huniq| |exact Hr].
    by apply Hfresh.
  - destruct (search self key) as [[self1 r]|] eqn:Hr; [|discriminate].
    cbn. intros [= <-]. by eapply search_keeps_unique.
  - destruct (delete self key) as [[self1 r]|] eqn:Hr; [|discriminate].
    cbn. intros [= <-]. by eapply delete_keeps_unique.
Qed.

Lemma unique_keys_preserved_witness :
  unique_live_keys (table table_AF).
Proof.
  apply (unique_keys_preserved table_A (OpInsert (sp "F")) table_AF).
  - intros [|[|[|[|[|j1]]]]] [|[|[|[|[|j2]]]]] e1 e2 p1 p2; cbn;
      intros; try discriminate; reflexivity.
  - intros p [= <-] ([|[|[|[|[|j]]]]] & e & pr & Hj & Hd & Hp & Hk);
      cbn in Hj; try discriminate.
    injection Hj as <-. injection Hp as <-. discriminate.
  - vm_compute. reflexivity.
Defined.

(** X11: an insert that fails as a duplicate leaves the slots, the live
    counter and the log as they were; it raises the collision counter by
    one exactly when the duplicate was met after the first attempt. *)
Theorem duplicate_insert_effect
    (self : DoubleHashTable) (p : Product) self' ps :
  insert self p = Ok (self', (false, MsgExists, ps)) ->
  table self' = table self /\ count self' = count self /\
  collision_logs self' = collision_logs self /\
  collision_count self' =
  collision_count self + (if 1 <? Z.of_nat (length ps) then 1 else 0).
Proof. apply insert_duplicate_frame. Qed.

Lemma duplicate_insert_effect_witness :
  exists self',
    insert table_AF (sp "F") = Ok (self', (false, MsgExists, [0; 2])) /\
    table self' = table table_AF /\
    collision_count self' = collision_count table_AF + 1.
Proof.
  assert (Hi : exists self',
             insert table_AF (sp "F") = Ok (self', (false, MsgExists, [0; 2])))
    by (eexists; vm_compute; reflexivity).
  destruct Hi as [self' Hi]. exists self'. split; [exact Hi|].
  destruct (duplicate_insert_effect _ _ _ _ Hi) as (Ht & _ & _ & Hc).
  split; [exact Ht|exact Hc].
Defined.

(** X12: an insert that succeeds writes a live entry with the product
    into one slot, which was empty or tombstoned, is in range and is the
    last position of the probe sequence; no other slot changes, the live
    counter goes up by one and the capacity stays. *)
Theorem insert_success_effect
    (self : DoubleHashTable) (p : Product) self' msg ps :
  insert self p = Ok (self', (true, msg, ps)) ->
  exists pos,
    msg = MsgInserted pos /\ last ps = Some pos /\
    0 <= pos < size self /\
    slot_free (table self) pos = true /\
    table self' =
    <[Z.to_nat pos := Some {| product := Some p; is_deleted := false |}]>
      (table self) /\
    count self' = count self + 1 /\
    size self' = size self.
Proof.
  intros Hr. apply insert_success_inv in Hr. cbn zeta in Hr.
  destruct Hr as (Hn & _ & pre & i & rest & d & _ & _ & Hf & -> & -> & ->).
  eexists. split; [reflexivity|]. split; [apply last_snoc|].
  split; [by apply probe_pos_range|]. split; [exact Hf|].
  split; [exact (table_landed (bump self (zeros pre)) _ _ _ _ _ _)|].
  split; [exact (count_landed (bump self (zeros pre)) _ _ _ _ _ _)|].
  exact (size_landed (bump self (zeros pre)) _ _ _ _ _ _).
Qed.

Lemma insert_success_effect_witness :
  exists self',
    insert table_A (sp "F") = Ok (self', (true, MsgInserted 2, [0; 2])) /\
    count self' = count table_A + 1.
Proof.
  assert (Hi : exists self',
             insert table_A (sp "F")
             = Ok (self', (true, MsgInserted 2, [0; 2])))
    by (eexists; vm_compute; reflexivity).
  destruct Hi as [self' Hi]. exists self'. split; [exact Hi|].
  destruct (insert_success_effect _ _ _ _ _ Hi) as (pos & _ & _ & _ & _ & _ & Hc & _).
  exact Hc.
Defined.

(** X13: a delete that succeeds turns one live entry with the key into
    a tombstone that keeps its product, at the position it reports; no
    other slot changes and the live counter goes down by one. A delete
    that fails reports "not found" and leaves slots and live counter as
    they were. Capacity and collision counter stay in both cases. *)
Theorem delete_effect
    (self : DoubleHashTable) (key : str) self' ok msg ps :
  delete self key = Ok (self', (ok, msg, ps)) ->
  size self' = size self /\
  collision_count self' = collision_count self /\
  if ok then
    exists pos e pr,
      msg = MsgDeleted pos /\ last ps = Some pos /\
      0 <= pos < size self /\
      table self !! Z.to_nat pos = Some (Some e) /\
      is_deleted e = false /\ product e = Some pr /\
      ma_san_pham pr = key /\
      table self' =
      <[Z.to_nat pos := Some {| product := Some pr; is_deleted := true |}]>
        (table self) /\
      count self' = count self - 1
  else
    msg = MsgNotFound /\ table self' = table self /\
    count self' = count self.
Proof.
  intros Hr. destruct ok.
  - apply delete_success_walk in Hr. cbn zeta in Hr.
    destruct Hr as (pre & i & rest & e & Hn & _ & _ & Hg & Hsame & -> & ->
                    & Hsize & Hc & Hcc & Htbl).
    split; [exact Hsize|]. split; [exact Hcc|].
    destruct (slot_same_product _ _ _ _ Hg Hsame) as (Hd & pr & Hpr & Hk).
    pose proof (probe_pos_range (size self) key i Hn) as Hp.
    exists (probe_pos (size self) key i), e, pr.
    split; [reflexivity|]. split; [apply last_snoc|]. split; [exact Hp|].
    split; [by apply getitem_Ok_lookup; [lia|]|].
    split; [exact Hd|]. split; [exact Hpr|]. split; [exact Hk|].
    split; [by rewrite Htbl, Hpr|exact Hc].
  - apply delete_inv in Hr as (s1 & found & pos0 & Hs & Hcase).
    destruct Hcase as [(_ & -> & _ & ->)|(pr & e & _ & _ & [=] & _)].
    apply search_frame in Hs as (Hsize & Htbl & Hc & Hcc). done.
Qed.

Lemma delete_effect_witness :
  exists self',
    delete table_AF "F" = Ok (self', (true, MsgDeleted 2, [0; 2])) /\
    count self' = count table_AF - 1.
Proof.
  assert (Hd : exists self',
             delete table_AF "F" = Ok (self', (true, MsgDeleted 2, [0; 2])))
    by (eexists; vm_compute; reflexivity).
  destruct Hd as [self' Hd]. exists self'. split; [exact Hd|].
  destruct (delete_effect _ _ _ _ _ _ Hd)
    as (_ & _ & pos & e & pr & _ & _ & _ & _ & _ & _ & _ & _ & Hc).
  exact Hc.
Defined.

(** X14: with a prime capacity, as the constructor recommends, a
    well-formed table with a slot that is not live accepts every key
    that is not stored live: the insert lands. *)
Theorem prime_capacity_insert_lands (self : DoubleHashTable) (p : Product) :
  table_ok self ->
  Z.prime (size self) ->
  count self < size self ->
  ~ stored_live (ma_san_pham p) (table self) ->
  exists self' pos ps,
    insert self p = Ok (self', (true, MsgInserted pos, ps)).
Proof.
  intros Hok Hprime Hlt Hfresh.
  destruct (insert_coprime_outcome self p Hok Hlt
              (prime_capacity_coprime _ _ Hprime))
    as (self' & ok & msg & pre & i & rest & Hr & _ & _ & Hcase).
  destruct Hcase as [(Hs & _)|(_ & -> & -> & _)].
  - exfalso. apply Hfresh. eapply slot_same_stored; [|exact Hs].
    apply probe_pos_range. by destruct Hok.
  - by eexists _, _, _.
Qed.

Lemma prime_capacity_insert_lands_witness :
  exists self' pos ps,
    insert table_A (sp "F") = Ok (self', (true, MsgInserted pos, ps)).
Proof.
  apply prime_capacity_insert_lands.
  - constructor; cbn; try reflexivity; try lia.
    intros [|[|[|[|[|j]]]]] e; cbn; intros [= <-]; discriminate.
  - apply is_prime_true_iff. vm_compute. reflexivity.
  - cbn. lia.
  - intros ([|[|[|[|[|j]]]]] & e & pr & Hj & Hd & Hp & Hk); cbn in Hj;
      try discriminate.
    injection Hj as <-. injection Hp as <-. discriminate.
Defined.

(** X15: the probe sequence a call returns is always an initial segment
    of the walk of the key, [probe(key, 0), probe(key, 1), ...], of at
    most [capacity] positions: for insert, search and delete, whatever
    the outcome. *)
Theorem probe_sequence_is_walk_prefix (self : DoubleHashTable) :
  (forall p self' ok msg ps,
     insert self p = Ok (self', (ok, msg, ps)) ->
     ps = probe_pos (size self) (ma_san_pham p)
          <$> range (Z.of_nat (length ps)) /\
     Z.of_nat (length ps) <= Z.max 0 (size self)) /\
  (forall key self' found pos0 ps,
     search self key = Ok (self', (found, pos0, ps)) ->
     ps = probe_pos (size self) key <$> range (Z.of_nat (length ps)) /\
     Z.of_nat (length ps) <= Z.max 0 (size self)) /\
  (forall key self' ok msg ps,
     delete self key = Ok (self', (ok, msg, ps)) ->
     ps = probe_pos (size self) key <$> range (Z.of_nat (length ps)) /\
     Z.of_nat (length ps) <= Z.max 0 (size self)).
Proof.
  split; [|split].
  - intros p self' ok msg ps. apply insert_probe_segment.
  - intros key self' found pos0 ps. apply search_probe_segment.
  - intros key self' ok msg ps Hr.
    apply delete_inv in Hr as (s1 & found & pos0 & Hs & _).
    by eapply search_probe_segment.
Qed.

Lemma probe_sequence_is_walk_prefix_witness :
  [0; 3; 0; 3; 0; 3] = probe_pos 6 "H" <$> range 6.
Proof.
  destruct (proj1 (probe_sequence_is_walk_prefix table_03) (sp "H")
              (bump table_03 1) false MsgCouldNotInsert [0; 3; 0; 3; 0; 3])
    as [Heq _]; [vm_compute; reflexivity|].
  exact Heq.
Defined.

(** X16: [get_all_products] lists exactly the live entries, each with
    the index of its slot and its product, in ascending slot order:
    tombstones and empty slots are left out. *)
Theorem all_products_are_live_slots (self : DoubleHashTable) :
  (forall z op,
     In (z, op) (get_all_products self) <->
     exists (j : nat) e,
       z = Z.of_nat j /\ table self !! j = Some (Some e) /\
       is_deleted e = false /\ op = product e) /\
  StronglySorted Z.lt (fst <$> get_all_products self).
Proof.
  split.
  - intros z op. unfold get_all_products. rewrite enumerate_as_from.
    apply all_products_from.
  - unfold get_all_products. rewrite enumerate_as_from.
    apply (all_products_sorted 0 (table self)).
Qed.

(** X17: on a well-formed table (every table reached by calls is one)
    [get_all_products] returns as many products as the live counter
    says. *)
Theorem all_products_count (self : DoubleHashTable) :
  table_ok self ->
  Z.of_nat (length (get_all_products self)) = count self.
Proof.
  intros Hok. unfold get_all_products. rewrite enumerate_as_from.
  rewrite all_products_length. symmetry. by destruct Hok.
Qed.

Lemma all_products_count_witness :
  Z.of_nat (length (get_all_products table_A)) = 1.
Proof.
  apply (all_products_count table_A).
  constructor; cbn; try reflexivity; try lia.
  intros [|[|[|[|[|j]]]]] e; cbn; intros [= <-]; discriminate.
Defined.

(** X18: on a well-formed table the statistics agree with the slots:
    [occupied] is the live counter, [deleted] the number of tombstones,
    [empty] the number of slots never used (it is computed from the
    capacity, not counted), the three add up to the capacity, and the
    load factor is the float [count / size]. *)
Theorem statistics_agree_with_slots (self : DoubleHashTable) :
  table_ok self ->
  let s := get_statistics self in
  stat_size s = size self /\
  stat_occupied s = count self /\
  stat_deleted s = deleted (table self) /\
  stat_empty s = empties (table self) /\
  stat_occupied s + stat_deleted s + stat_empty s = stat_size s /\
  0 <= stat_occupied s /\ 0 <= stat_deleted s /\ 0 <= stat_empty s /\
  stat_load_factor s = NFloat (true_div (count self) (size self)) /\
  stat_collisions s = collision_count self /\
  stat_total_collision_events s = Z.of_nat (length (collision_logs self)).
Proof.
  intros [Hn Hlen Hc _]. cbn.
  destruct (slot_counts (table self)) as (Hsum & H1 & H2 & H3).
  destruct (Z.gtb_spec (size self) 0); [|lia].
  rewrite <- Hc. repeat split; lia.
Qed.

Lemma statistics_agree_with_slots_witness :
  stat_occupied (get_statistics table_A) = 1 /\
  stat_empty (get_statistics table_A) = 4.
Proof.
  destruct (statistics_agree_with_slots table_A)
    as (_ & Ho & _ & He & _).
  - constructor; cbn; try reflexivity; try lia.
    intros [|[|[|[|[|j]]]]] e; cbn; intros [= <-]; discriminate.
  - split; [exact Ho|exact He].
Defined.

(** X19: [get_table_state] returns one record per slot, in slot order,
    carrying the slot index, the status empty / deleted / occupied and
    the product (the product code for a tombstone), provided every
    tombstone has its product (it has on every table reached by calls);
    it raises [AttributeError] when some tombstone has none, as an
    imported one may. *)
Theorem table_state_matches_slots (self : DoubleHashTable) :
  ((forall (j : nat) e, table self !! j = Some (Some e) ->
                        is_deleted e = true -> product e <> None) ->
   exists st,
     get_table_state self = Ok st /\
     length st = length (table self) /\
     forall (j : nat) slot s,
       table self !! j = Some slot -> st !! j = Some s ->
       st_index s = Z.of_nat j /\ slot_view slot s) /\
  (forall (j : nat) e,
     table self !! j = Some (Some e) -> is_deleted e = true ->
     product e = None ->
     get_table_state self = Raise AttributeError).
Proof.
  split.
  - intros Hprod. unfold get_table_state. rewrite enumerate_as_from.
    destruct (table_state_loop_ok (table self) 0 [] Hprod)
      as (st & Heq & Hlen & Hpt).
    exists st. split; [exact Heq|]. split; [exact Hlen|]. exact Hpt.
  - intros j e Hj Hd Hpr. unfold get_table_state. rewrite enumerate_as_from.
    by eapply table_state_loop_raise.
Qed.

Lemma table_state_matches_slots_witness :
  exists st, get_table_state table_A = Ok st /\ length st = 5%nat.
Proof.
  destruct (proj1 (table_state_matches_slots table_A))
    as (st & Heq & Hlen & _).
  - intros [|[|[|[|[|j]]]]] e; cbn; intros [= <-]; discriminate.
  - exists st. split; [exact Heq|exact Hlen].
Defined.

(** X20: on every table reached from a fresh one, each log entry
    records at least one collision, and the lifetime collision counter
    is at least twice the number of INSERT entries of the log. *)
Theorem reachable_log_and_counter (n : Z) (self : DoubleHashTable) :
  reachable n self ->
  Forall (fun log => 1 <= log_collision_count log) (collision_logs self) /\
  2 * insert_entries (collision_logs self) <= collision_count self.
Proof. apply reachable_counters. Qed.

Lemma reachable_log_and_counter_witness :
  2 * insert_entries (collision_logs table_AF) <= collision_count table_AF.
Proof.
  refine (proj2 (reachable_log_and_counter 5 table_AF _)).
  reach5 [OpInsert (sp "A"); OpInsert (sp "F")].
Defined.

(** X21: no call empties a slot or changes the number of slots: a slot
    that holds an entry, live or tombstoned, holds one after every
    insert, search and delete. *)
Theorem used_slots_stay_used (self : DoubleHashTable) (o : op) self' :
  step self o = Ok self' ->
  length (table self') = length (table self) /\
  forall (j : nat) e,
    table self !! j = Some (Some e) ->
    exists e', table self' !! j = Some (Some e').
Proof.
  intros Hstep. split; [by eapply step_length|].
  intros j e. by eapply step_keeps_used.
Qed.

Lemma used_slots_stay_used_witness :
  length (table table_aF) = length (table table_AF).
Proof.
  refine (proj1 (used_slots_stay_used table_AF (OpDelete "A") table_aF _)).
  vm_compute. reflexivity.
Defined.

(** X22: on a well-formed table, after a delete of a key has succeeded
    an insert of a product with that key lands, with a probe sequence no
    longer than the one of the delete (it takes the tombstone of the key
    or an earlier one of its walk). *)
Theorem reinsert_after_delete
    (self : DoubleHashTable) (p : Product) self' msg ps :
  table_ok self ->
  delete self (ma_san_pham p) = Ok (self', (true, msg, ps)) ->
  exists self'' pos1 ps1,
    insert self' p = Ok (self'', (true, MsgInserted pos1, ps1)) /\
    (length ps1 <= length ps)%nat.
Proof. apply insert_after_delete. Qed.

Lemma reinsert_after_delete_witness :
  exists self' self'' pos1 ps1,
    delete table_A "A" = Ok (self', (true, MsgDeleted 0, [0])) /\
    insert self' (sp "A") = Ok (self'', (true, MsgInserted pos1, ps1)).
Proof.
  assert (Hd : exists self',
             delete table_A "A" = Ok (self', (true, MsgDeleted 0, [0])))
    by (eexists; vm_compute; reflexivity).
  destruct Hd as [self' Hd].
  destruct (reinsert_after_delete table_A (sp "A") self' (MsgDeleted 0) [0])
    as (self'' & pos1 & ps1 & Hi & _).
  - constructor; cbn; try reflexivity; try lia.
    intros [|[|[|[|[|j]]]]] e; cbn; intros [= <-]; discriminate.
  - exact Hd.
  - by exists self', self'', pos1, ps1.
Defined.

(** X23: import is stable: exporting an imported table and importing
    the result gives the imported table again, whatever the dict was
    (missing log, missing keys of an entry, stale collision counts). *)
Theorem import_is_stable (data : table_dict) :
  from_dict (to_dict (from_dict data)) = from_dict data.
Proof. apply import_export_import. Qed.

(** X24: on a fresh table with at least one slot, a search or a delete
    of any key ends after one probe, at [h1], without a product and
    without touching the table; an insert lands at [h1] after one probe,
    with live counter 1, collision counter 0 and an empty log. *)
Theorem fresh_table_calls (n : Z) (p : Product) :
  1 <= n ->
  let key := ma_san_pham p in
  search (DoubleHashTable_init n) key =
  Ok (DoubleHashTable_init n, (None, -1, [h1 n key])) /\
  delete (DoubleHashTable_init n) key =
  Ok (DoubleHashTable_init n, (false, MsgNotFound, [h1 n key])) /\
  exists self',
    insert (DoubleHashTable_init n) p =
    Ok (self', (true, MsgInserted (h1 n key), [h1 n key])) /\
    count self' = 1 /\ collision_count self' = 0 /\ collision_logs self' = [].
Proof.
  intros Hn key. subst key. set (key := ma_san_pham p).
  split; [by apply search_fresh|]. split.
  - unfold delete. by rewrite search_fresh.
  - unfold insert. fold key. change (count (DoubleHashTable_init n)) with 0.
    change (size (DoubleHashTable_init n)) with n.
    destruct (Z.geb_spec 0 n); [lia|].
    destruct (details_init_ok (DoubleHashTable_init n) key) as [d ->];
      [cbn; lia|].
    cbn [bind]. rewrite range_cons_0 by lia.
    destruct (insert_turn_free p key (DoubleHashTable_init n) 0
                (Z.of_nat <$> seq 1 (Z.to_nat n - 1)) [] d)
      as [d' ->]; [cbn; lia| |].
    + unfold slot_free. change (size (DoubleHashTable_init n)) with n.
      pose proof (slot_empty_init n (probe_pos n key 0)
                    (probe_pos_range n key 0 Hn)) as He.
      unfold slot_empty in He.
      by destruct (getitem (table (DoubleHashTable_init n))
                     (probe_pos n key 0)) as [[e|]|].
    + change (size (DoubleHashTable_init n)) with n.
      rewrite probe_pos_0 by lia. eexists. split; [reflexivity|].
      done.
Qed.

Lemma fresh_table_calls_witness :
  search (DoubleHashTable_init 11) "A1" =
  Ok (DoubleHashTable_init 11, (None, -1, [4])).
Proof.
  exact (proj1 (fresh_table_calls 11 (sp "A1") ltac:(lia))).
Defined.

(** X25: the plain-value forms of the models round-trip:
    [Product.from_dict (to_dict p)] is [p], and
    [HashEntry.from_dict (to_dict e)] is [e], also for an entry without
    product; the exported entry is a non-empty dict, so import does not
    take a used slot for an empty one. *)
Theorem model_dict_roundtrip :
  (forall p, ProductM.from_dict (ProductM.to_dict p) = p) /\
  (forall e, HashEntryM.truthy (HashEntryM.to_dict e) = true /\
             HashEntryM.from_dict (HashEntryM.to_dict e) = e).
Proof. split; [apply product_roundtrip|apply entry_roundtrip]. Qed.
